(** * clang-format's line-formatting core: search states and the line builder

    A shallow embedding of lib/Format/ContinuationIndenter.h (the indenter's
    nesting frames and search states, with the comparison operators the
    search memoizes on) and of lib/Format/UnwrappedLineParser.h (logical
    lines and the state of the parser that builds them).

    - [unsigned] fields are natural numbers ([N]); the comparison operators
      only test them with [!=] and [<], so no wrap-around arithmetic occurs.
    - [const FormatToken *] and [const AnnotatedLine *] are addresses ([N]),
      compared as the code compares them, by the value of the pointer.
    - [std::vector<ParenState>] is a [list ParenState]; its [operator<] is
      [std::lexicographical_compare] over the elements' [operator<].
    - The headers declare the member functions of both classes and define
      none; the operations the properties need are modelled from the
      design document, and each such definition says so. *)

From Stdlib Require Import NArith List Bool String Lia.
Import ListNotations.
Local Open Scope N_scope.

(** ** Generic comparison helpers *)

(** [a < b] on two C++ [bool]s: both are promoted to [int], so the only
    strict pair is [false < true]. *)
Definition bool_lt (a b : bool) : bool := negb a && b.

(** [std::lexicographical_compare(first1, last1, first2, last2)] with the
    element comparison [lt], which is what [std::vector::operator<] runs. *)
Fixpoint vector_lt {T : Type} (lt : T -> T -> bool) (v w : list T) : bool :=
  match v, w with
  | x :: v', y :: w' =>
      if lt x y then true
      else if lt y x then false
      else vector_lt lt v' w'
  | [], _ :: _ => true
  | _, [] => false
  end.

(** Three-way lexicographic comparison of two key tuples. *)
Fixpoint lex_compare (k l : list N) : comparison :=
  match k, l with
  | x :: k', y :: l' =>
      match x ?= y with
      | Eq => lex_compare k' l'
      | c => c
      end
  | [], [] => Eq
  | [], _ :: _ => Lt
  | _ :: _, [] => Gt
  end.

(** The verdict of a comparison chain: decided by the first key that
    differs, and [rest] when none does. *)
Definition lex_then (c : comparison) (rest : bool) : bool :=
  match c with
  | Lt => true
  | Gt => false
  | Eq => rest
  end.

(** Key of a flag tested by [if (F != Other.F) return F;]: the state whose
    flag is set is the smaller one. *)
Definition set_first (b : bool) : N := if b then 0 else 1.

(** Key of a flag tested by [if (F != Other.F) return F < Other.F;]. *)
Definition clear_first (b : bool) : N := if b then 1 else 0.

(** What [std::map] asks of its [Compare], a strict weak order: irreflexive,
    transitive, and with a transitive incomparability relation. *)
Class StrictWeakOrder {T : Type} (lt : T -> T -> bool) : Prop := {
  swo_irrefl : forall x, lt x x = false;
  swo_trans : forall x y z, lt x y = true -> lt y z = true -> lt x z = true;
  swo_equiv_trans : forall x y z,
    lt x y = false -> lt y x = false ->
    lt y z = false -> lt z y = false ->
    lt x z = false /\ lt z x = false
}.

(** ** ContinuationIndenter.h *)

Module Indenter.

(** *** [ParenState] *)


Record ParenState : Type := mkParenState {
  Indent : N;
  LastSpace : N;
  FirstLessLess : N;
  BreakBeforeClosingBrace : bool;
  QuestionColumn : N;
  AvoidBinPacking : bool;
  BreakBeforeParameter : bool;
  NoLineBreak : bool;
  ColonPos : N;
  StartOfFunctionCall : N;
  StartOfArraySubscripts : N;
  NestedNameSpecifierContinuation : N;
  CallContinuation : N;
  VariablePos : N;
  ContainsLineBreak : bool;
  ContainsUnwrappedBuilder : bool
}.

(** The constructor [ParenState(Indent, LastSpace, AvoidBinPacking,
    NoLineBreak)]. *)
Definition ParenState_new (indent lastSpace : N)
    (avoidBinPacking noLineBreak : bool) : ParenState :=
  {| Indent := indent;
     LastSpace := lastSpace;
     FirstLessLess := 0;
     BreakBeforeClosingBrace := false;
     QuestionColumn := 0;
     AvoidBinPacking := avoidBinPacking;
     BreakBeforeParameter := false;
     NoLineBreak := noLineBreak;
     ColonPos := 0;
     StartOfFunctionCall := 0;
     StartOfArraySubscripts := 0;
     NestedNameSpecifierContinuation := 0;
     CallContinuation := 0;
     VariablePos := 0;
     ContainsLineBreak := false;
     ContainsUnwrappedBuilder := false |}.

(** [ParenState::operator<], statement by statement. *)
Definition ParenState_lt (A Other : ParenState) : bool :=
  if negb (Indent A =? Indent Other) then
    Indent A <? Indent Other
  else if negb (LastSpace A =? LastSpace Other) then
    LastSpace A <? LastSpace Other
  else if negb (FirstLessLess A =? FirstLessLess Other) then
    FirstLessLess A <? FirstLessLess Other
  else if negb (Bool.eqb (BreakBeforeClosingBrace A) (BreakBeforeClosingBrace Other)) then
    BreakBeforeClosingBrace A
  else if negb (QuestionColumn A =? QuestionColumn Other) then
    QuestionColumn A <? QuestionColumn Other
  else if negb (Bool.eqb (AvoidBinPacking A) (AvoidBinPacking Other)) then
    AvoidBinPacking A
  else if negb (Bool.eqb (BreakBeforeParameter A) (BreakBeforeParameter Other)) then
    BreakBeforeParameter A
  else if negb (Bool.eqb (NoLineBreak A) (NoLineBreak Other)) then
    NoLineBreak A
  else if negb (ColonPos A =? ColonPos Other) then
    ColonPos A <? ColonPos Other
  else if negb (StartOfFunctionCall A =? StartOfFunctionCall Other) then
    StartOfFunctionCall A <? StartOfFunctionCall Other
  else if negb (StartOfArraySubscripts A =? StartOfArraySubscripts Other) then
    StartOfArraySubscripts A <? StartOfArraySubscripts Other
  else if negb (CallContinuation A =? CallContinuation Other) then
    CallContinuation A <? CallContinuation Other
  else if negb (VariablePos A =? VariablePos Other) then
    VariablePos A <? VariablePos Other
  else if negb (Bool.eqb (ContainsLineBreak A) (ContainsLineBreak Other)) then
    bool_lt (ContainsLineBreak A) (ContainsLineBreak Other)
  else if negb (Bool.eqb (ContainsUnwrappedBuilder A) (ContainsUnwrappedBuilder Other)) then
    bool_lt (ContainsUnwrappedBuilder A) (ContainsUnwrappedBuilder Other)
  else false.

(** The fields [ParenState::operator<] reads, in the order it reads them,
    each as the key under which the operator ranks it. *)
Definition ParenState_keys (P : ParenState) : list N :=
  [ Indent P; LastSpace P; FirstLessLess P;
    set_first (BreakBeforeClosingBrace P);
    QuestionColumn P;
    set_first (AvoidBinPacking P);
    set_first (BreakBeforeParameter P);
    set_first (NoLineBreak P);
    ColonPos P; StartOfFunctionCall P; StartOfArraySubscripts P;
    CallContinuation P; VariablePos P;
    clear_first (ContainsLineBreak P);
    clear_first (ContainsUnwrappedBuilder P) ].

(** *** [LineState] *)

Record LineState : Type := mkLineState {
  Column : N;
  NextToken : N;
  LineContainsContinuedForLoopSection : bool;
  ParenLevel : N;
  StartOfLineLevel : N;
  LowestLevelOnLine : N;
  StartOfStringLiteral : N;
  Stack : list ParenState;
  IgnoreStackForComparison : bool;
  FirstIndent : N;
  Line : N
}.

(** [LineState::operator<], statement by statement. *)
Definition LineState_lt (A Other : LineState) : bool :=
  if negb (NextToken A =? NextToken Other) then
    NextToken A <? NextToken Other
  else if negb (Column A =? Column Other) then
    Column A <? Column Other
  else if negb (Bool.eqb (LineContainsContinuedForLoopSection A)
                    (LineContainsContinuedForLoopSection Other)) then
    LineContainsContinuedForLoopSection A
  else if negb (ParenLevel A =? ParenLevel Other) then
    ParenLevel A <? ParenLevel Other
  else if negb (StartOfLineLevel A =? StartOfLineLevel Other) then
    StartOfLineLevel A <? StartOfLineLevel Other
  else if negb (LowestLevelOnLine A =? LowestLevelOnLine Other) then
    LowestLevelOnLine A <? LowestLevelOnLine Other
  else if negb (StartOfStringLiteral A =? StartOfStringLiteral Other) then
    StartOfStringLiteral A <? StartOfStringLiteral Other
  else if IgnoreStackForComparison A || IgnoreStackForComparison Other then
    false
  else vector_lt ParenState_lt (Stack A) (Stack Other).

(** The scalar fields [LineState::operator<] reads before it looks at the
    stack, in the order it reads them. *)
Definition LineState_keys (S : LineState) : list N :=
  [ NextToken S; Column S;
    set_first (LineContainsContinuedForLoopSection S);
    ParenLevel S; StartOfLineLevel S; LowestLevelOnLine S;
    StartOfStringLiteral S ].

(** Neither state is smaller than the other: what [std::map] and [std::set]
    treat as the same key. *)
Definition ParenState_equiv (A B : ParenState) : bool :=
  negb (ParenState_lt A B) && negb (ParenState_lt B A).

Definition LineState_equiv (A B : LineState) : bool :=
  negb (LineState_lt A B) && negb (LineState_lt B A).


(** The two states carry the same value in every scalar field that
    [LineState::operator<] tests before it reaches the stack. *)
Definition LineState_scalars_agree (A B : LineState) : Prop :=
  NextToken A = NextToken B /\
  Column A = Column B /\
  LineContainsContinuedForLoopSection A =
    LineContainsContinuedForLoopSection B /\
  ParenLevel A = ParenLevel B /\
  StartOfLineLevel A = StartOfLineLevel B /\
  LowestLevelOnLine A = LowestLevelOnLine B /\
  StartOfStringLiteral A = StartOfStringLiteral B.

(** *** Sample search states

    Three states of one line, at the same token and column: [stateA] and
    [stateC] compare their stacks, [stateB] has given up on its own
    ([IgnoreStackForComparison], as the search sets it once it has explored
    too many states). *)

Definition frame4 : ParenState := ParenState_new 4 4 false false.
Definition frame8 : ParenState := ParenState_new 8 4 false false.

Definition stateA : LineState :=
  {| Column := 12; NextToken := 4096;
     LineContainsContinuedForLoopSection := false;
     ParenLevel := 1; StartOfLineLevel := 0; LowestLevelOnLine := 0;
     StartOfStringLiteral := 0;
     Stack := [frame4];
     IgnoreStackForComparison := false;
     FirstIndent := 0; Line := 512 |}.

Definition stateB : LineState :=
  {| Column := 12; NextToken := 4096;
     LineContainsContinuedForLoopSection := false;
     ParenLevel := 1; StartOfLineLevel := 0; LowestLevelOnLine := 0;
     StartOfStringLiteral := 0;
     Stack := [frame4; frame8];
     IgnoreStackForComparison := true;
     FirstIndent := 0; Line := 512 |}.

Definition stateC : LineState :=
  {| Column := 12; NextToken := 4096;
     LineContainsContinuedForLoopSection := false;
     ParenLevel := 1; StartOfLineLevel := 0; LowestLevelOnLine := 0;
     StartOfStringLiteral := 0;
     Stack := [frame8];
     IgnoreStackForComparison := false;
     FirstIndent := 0; Line := 512 |}.

(** A later token of the same line. *)
Definition stateD : LineState :=
  {| Column := 20; NextToken := 4160;
     LineContainsContinuedForLoopSection := false;
     ParenLevel := 1; StartOfLineLevel := 0; LowestLevelOnLine := 0;
     StartOfStringLiteral := 0;
     Stack := [frame8];
     IgnoreStackForComparison := false;
     FirstIndent := 0; Line := 512 |}.

(** The assignment [P.NestedNameSpecifierContinuation = n]. *)
Definition set_NestedNameSpecifierContinuation (P : ParenState) (n : N)
    : ParenState :=
  {| Indent := Indent P;
     LastSpace := LastSpace P;
     FirstLessLess := FirstLessLess P;
     BreakBeforeClosingBrace := BreakBeforeClosingBrace P;
     QuestionColumn := QuestionColumn P;
     AvoidBinPacking := AvoidBinPacking P;
     BreakBeforeParameter := BreakBeforeParameter P;
     NoLineBreak := NoLineBreak P;
     ColonPos := ColonPos P;
     StartOfFunctionCall := StartOfFunctionCall P;
     StartOfArraySubscripts := StartOfArraySubscripts P;
     NestedNameSpecifierContinuation := n;
     CallContinuation := CallContinuation P;
     VariablePos := VariablePos P;
     ContainsLineBreak := ContainsLineBreak P;
     ContainsUnwrappedBuilder := ContainsUnwrappedBuilder P |}.

(** The same search state for another line and first indent: the two
    assignments [S.FirstIndent = firstIndent; S.Line = line]. *)
Definition set_FirstIndent_Line (S : LineState) (firstIndent line : N)
    : LineState :=
  {| Column := Column S;
     NextToken := NextToken S;
     LineContainsContinuedForLoopSection :=
       LineContainsContinuedForLoopSection S;
     ParenLevel := ParenLevel S;
     StartOfLineLevel := StartOfLineLevel S;
     LowestLevelOnLine := LowestLevelOnLine S;
     StartOfStringLiteral := StartOfStringLiteral S;
     Stack := Stack S;
     IgnoreStackForComparison := IgnoreStackForComparison S;
     FirstIndent := firstIndent;
     Line := line |}.

(** A frame in which a nested name specifier was continued in column 6. *)
Definition frame4_nns : ParenState :=
  set_NestedNameSpecifierContinuation frame4 6.

(** *** Protruding tokens *)

(** Modelled from the spec: the style options the penalty of a layout is
    made of ([FormatStyle] is declared in clang/Format/Format.h, which is
    not among the sources): the column limit, the cost of one inserted
    break inside a token, and the cost of going a number of columns beyond
    the limit. *)
Record FormatStyle : Type := mkFormatStyle {
  ColumnLimit : N;
  PenaltyBreak : N;
  PenaltyExcess : N -> N
}.

(** Modelled from the spec: the token as the indenter sees it
    ([FormatToken] is declared in FormatToken.h, which is not among the
    sources): its width in columns, whether its kind supports splitting,
    and the lines it is laid out on when it is split at its natural break
    points, given its start column and the column limit, each by the column
    it ends in. Where the break points are is the token's business. *)
Record FormatToken : Type := mkFormatToken {
  ColumnWidth : N;
  CanBreak : bool;
  SplitColumns : N -> N -> list N
}.

Definition set_Column (S : LineState) (column : N) : LineState :=
  {| Column := column;
     NextToken := NextToken S;
     LineContainsContinuedForLoopSection :=
       LineContainsContinuedForLoopSection S;
     ParenLevel := ParenLevel S;
     StartOfLineLevel := StartOfLineLevel S;
     LowestLevelOnLine := LowestLevelOnLine S;
     StartOfStringLiteral := StartOfStringLiteral S;
     Stack := Stack S;
     IgnoreStackForComparison := IgnoreStackForComparison S;
     FirstIndent := FirstIndent S;
     Line := Line S |}.

(** Modelled from the spec: the penalty of a line that ends in [column],
    nothing within the limit and the style's cost of the excess beyond. *)
Definition overflowPenalty (Style : FormatStyle) (column : N) : N :=
  if ColumnLimit Style <? column
  then PenaltyExcess Style (column - ColumnLimit Style)
  else 0.

(** Modelled from the spec: what [addNextStateToQueue] charges every state
    for the line it ends on, a broken token's last line and a token in one
    piece alike. *)
Definition columnLimitPenalty (Style : FormatStyle) (State : LineState) : N :=
  overflowPenalty Style (Column State).

(** Modelled from the spec: the loop of [breakProtrudingToken] over the
    lines of a split token: [current] is the line reached, [rest] the lines
    after it. Going on to another line costs a break and what [current] has
    beyond the limit. *)
Fixpoint breakLines (Style : FormatStyle) (Penalty : N) (current : N)
    (rest : list N) : N * N :=
  match rest with
  | [] => (Penalty, current)
  | next :: rest' =>
      breakLines Style
        (Penalty + PenaltyBreak Style + overflowPenalty Style current)
        next rest'
  end.

(** Modelled from the spec: [breakProtrudingToken], whose body is in
    ContinuationIndenter.cpp, not among the sources; it follows the
    header's comment on the function. [State] has the token placed, so
    [Column State] is where the token ends. *)
Definition breakProtrudingToken (Style : FormatStyle)
    (Current : FormatToken) (State : LineState) : N * LineState :=
  if Column State <=? ColumnLimit Style then (0, State)
  else if negb (CanBreak Current) then (0, State)
  else
    match SplitColumns Current (Column State - ColumnWidth Current)
                       (ColumnLimit Style) with
    | first :: second :: rest =>
        let (Penalty, column) := breakLines Style 0 first (second :: rest) in
        (Penalty, set_Column State column)
    | _ => (0, State)
    end.

(** The sum of the penalties of the lines that end in [columns]. *)
Definition overflowPenalties (Style : FormatStyle) (columns : list N) : N :=
  fold_right N.add 0 (map (overflowPenalty Style) columns).

(** *** Sample style and token *)

(** Twenty columns, 100 a break, and the square of the excess. *)
Definition narrow : FormatStyle :=
  {| ColumnLimit := 20; PenaltyBreak := 100;
     PenaltyExcess := fun n => n * n |}.

(** A string literal of 40 columns that splits into lines ending in
    columns 18, 23 and 15, whatever the start column and the limit. *)
Definition long_literal : FormatToken :=
  {| ColumnWidth := 40; CanBreak := true;
     SplitColumns := fun _ _ => [18; 23; 15] |}.

(** An identifier of 40 columns. *)
Definition long_identifier : FormatToken :=
  {| ColumnWidth := 40; CanBreak := false;
     SplitColumns := fun _ _ => [] |}.

(** [stateA] with a token of 40 columns placed from column 4. *)
Definition stateWide : LineState := set_Column stateA 44.

End Indenter.

(** ** ContinuationIndenter.h: further vocabulary *)

Module IndenterStacks.
Import Indenter.

(** The assignment [S.Stack = stack]. *)
Definition set_Stack (S : LineState) (stack : list ParenState) : LineState :=
  {| Column := Column S;
     NextToken := NextToken S;
     LineContainsContinuedForLoopSection :=
       LineContainsContinuedForLoopSection S;
     ParenLevel := ParenLevel S;
     StartOfLineLevel := StartOfLineLevel S;
     LowestLevelOnLine := LowestLevelOnLine S;
     StartOfStringLiteral := StartOfStringLiteral S;
     Stack := stack;
     IgnoreStackForComparison := IgnoreStackForComparison S;
     FirstIndent := FirstIndent S;
     Line := Line S |}.

(** What [ParenState::operator<] can tell of each frame of a stack. *)
Definition Stack_keys (stack : list ParenState) : list (list N) :=
  map ParenState_keys stack.

(** Everything [LineState::operator<] can tell of a state: the scalar
    fields it tests, the flag, and the tested fields of each frame. *)
Definition LineState_view (S : LineState) : list N * bool * list (list N) :=
  (LineState_keys S, IgnoreStackForComparison S, Stack_keys (Stack S)).

(** [stateA] one nesting level deeper. *)
Definition stateA_deeper : LineState := set_Stack stateA [frame4; frame8].

(** [stateA] after a nested name specifier was continued in its frame. *)
Definition stateA_nns : LineState := set_Stack stateA [frame4_nns].

End IndenterStacks.

(** ** UnwrappedLineParser.h *)

Module LineBuilder.

(** *** Tokens *)

(** Modelled from the spec: the kinds of token the line builder tells
    apart ([FormatToken] is declared in FormatToken.h, which is not among
    the sources). The spec's Token is an atomic lexical unit with a kind,
    its literal text and line-break metadata. *)
Inductive TokenKind : Type :=
  | tok_hash
  | tok_l_brace
  | tok_r_brace
  | tok_semi
  | tok_numeric_constant
  | tok_kw_false
  | tok_identifier
  | tok_other.

(** Modelled from the spec: the preprocessor keyword a token spells
    (clang/Basic/IdentifierTable.h is not among the sources); the line
    builder tells the conditional directives and [#define] from the rest. *)
Inductive PPKeywordKind : Type :=
  | pp_not_keyword
  | pp_define
  | pp_if
  | pp_ifdef
  | pp_ifndef
  | pp_elif
  | pp_else
  | pp_endif.

(** Modelled from the spec: the attributes of a token the line builder
    reads. [HasUnescapedNewline] and [IsFirst] are the line-break metadata:
    the token follows a line break of the source, or opens the stream. *)
Record FormatToken : Type := mkFormatToken {
  Kind : TokenKind;
  PPKeywordID : PPKeywordKind;
  TokenText : string;
  HasUnescapedNewline : bool;
  IsFirst : bool
}.

(** *** [UnwrappedLine] and [UnwrappedLineNode] *)

Inductive UnwrappedLine : Type := mkUnwrappedLine {
  Tokens : list UnwrappedLineNode;
  Level : N;
  InPPDirective : bool;
  MustBeDeclaration : bool
}
with UnwrappedLineNode : Type := mkUnwrappedLineNode {
  Tok : option FormatToken;
  Children : list UnwrappedLine
}.

(** [UnwrappedLine::UnwrappedLine()]: the member initialisers, and the
    default-constructed [std::list] of tokens. *)
Definition UnwrappedLine_new : UnwrappedLine :=
  {| Tokens := []; Level := 0; InPPDirective := false;
     MustBeDeclaration := false |}.

(** [UnwrappedLineNode::UnwrappedLineNode(FormatToken *Tok)]. *)
Definition UnwrappedLineNode_of (t : FormatToken) : UnwrappedLineNode :=
  {| Tok := Some t; Children := [] |}.

(** The tokens of a line, in order. *)
Definition line_tokens (L : UnwrappedLine) : list FormatToken :=
  flat_map (fun n => match Tok n with Some t => [t] | None => [] end)
           (Tokens L).

(** *** The parser object *)

(** [enum PPBranchKind]. *)
Inductive PPBranchKind : Type :=
  | PP_Conditional
  | PP_Unreachable.

(** What [CurrentLines] points to: [&Lines] or [&PreprocessorDirectives]. *)
Inductive LinesRef : Type :=
  | ToLines
  | ToPreprocessorDirectives.

(** Modelled from the spec: where [parsePPDirective] stands inside a
    directive: after the [#], after the [if] of an [#if], or past both. *)
Inductive PPPosition : Type :=
  | AtKeyword
  | AtCondition
  | InBody.

(** The data members of [UnwrappedLineParser] that the grouping of tokens
    into lines depends on. [PPStack] has its back at the head of the list.
    [PreBlockLine] and [Position] make explicit what the C++ keeps on its
    call stack while a directive is parsed: the interrupted line, and how
    far the directive has been read. *)
Record UnwrappedLineParser : Type := mkUnwrappedLineParser {
  Line : UnwrappedLine;
  Lines : list UnwrappedLine;
  PreprocessorDirectives : list UnwrappedLine;
  CurrentLines : LinesRef;
  DeclarationScopeStack : list bool;
  StructuralError : bool;
  PPStack : list PPBranchKind;
  PreBlockLine : UnwrappedLine;
  Position : PPPosition
}.

Definition set_Line (P : UnwrappedLineParser) (L : UnwrappedLine) :=
  {| Line := L; Lines := Lines P;
     PreprocessorDirectives := PreprocessorDirectives P;
     CurrentLines := CurrentLines P;
     DeclarationScopeStack := DeclarationScopeStack P;
     StructuralError := StructuralError P; PPStack := PPStack P;
     PreBlockLine := PreBlockLine P; Position := Position P |}.

Definition set_CurrentLines (P : UnwrappedLineParser) (r : LinesRef) :=
  {| Line := Line P; Lines := Lines P;
     PreprocessorDirectives := PreprocessorDirectives P;
     CurrentLines := r;
     DeclarationScopeStack := DeclarationScopeStack P;
     StructuralError := StructuralError P; PPStack := PPStack P;
     PreBlockLine := PreBlockLine P; Position := Position P |}.

Definition set_PPStack (P : UnwrappedLineParser) (s : list PPBranchKind) :=
  {| Line := Line P; Lines := Lines P;
     PreprocessorDirectives := PreprocessorDirectives P;
     CurrentLines := CurrentLines P;
     DeclarationScopeStack := DeclarationScopeStack P;
     StructuralError := StructuralError P; PPStack := s;
     PreBlockLine := PreBlockLine P; Position := Position P |}.

Definition set_Position (P : UnwrappedLineParser) (p : PPPosition) :=
  {| Line := Line P; Lines := Lines P;
     PreprocessorDirectives := PreprocessorDirectives P;
     CurrentLines := CurrentLines P;
     DeclarationScopeStack := DeclarationScopeStack P;
     StructuralError := StructuralError P; PPStack := PPStack P;
     PreBlockLine := PreBlockLine P; Position := p |}.

(** The line under construction with its tokens replaced. *)
Definition with_Tokens (L : UnwrappedLine) (ts : list UnwrappedLineNode) :=
  {| Tokens := ts; Level := Level L; InPPDirective := InPPDirective L;
     MustBeDeclaration := MustBeDeclaration L |}.

(** Modelled from the spec: the state [parse] starts from (the
    constructor's body is in UnwrappedLineParser.cpp): nothing parsed, and
    the file-level declaration scope open. *)
Definition initial : UnwrappedLineParser :=
  {| Line := {| Tokens := []; Level := 0; InPPDirective := false;
                MustBeDeclaration := true |};
     Lines := [];
     PreprocessorDirectives := [];
     CurrentLines := ToLines;
     DeclarationScopeStack := [true];
     StructuralError := false;
     PPStack := [];
     PreBlockLine := UnwrappedLine_new;
     Position := InBody |}.

(** *** Operations *)

(** The bodies of the member functions are in UnwrappedLineParser.cpp, which
    is not among the sources. The operations below are the preprocessor
    side of the parser: they follow the header's comments on [Lines],
    [PreprocessorDirectives], [CurrentLines] and [PPBranchKind], and the
    spec's Line Builder (section 4.1, third item, and section 9). How the
    tokens outside directives are grouped into lines (blocks, child lines,
    comments, the look-ahead for braced lists and lambdas) is left open: it
    is a parameter of [readToken], and the properties hold for every
    grouping. *)

(** Modelled from the spec: the token is the first of its source line. *)
Definition starts_line (t : FormatToken) : bool :=
  HasUnescapedNewline t || IsFirst t.

(** Modelled from the spec: [Tok.is(tok::hash)]. *)
Definition is_hash (t : FormatToken) : bool :=
  match Kind t with tok_hash => true | _ => false end.

(** Modelled from the spec: an always-false condition, the literal [0] or
    [false]. *)
Definition is_false_condition (t : FormatToken) : bool :=
  match Kind t with
  | tok_numeric_constant => String.eqb (TokenText t) "0"
  | tok_kw_false => true
  | _ => false
  end.

(** Modelled from the spec: the innermost branch is unreachable,
    [!PPStack.empty() && PPStack.back() == PP_Unreachable]. *)
Definition in_unreachable (s : list PPBranchKind) : bool :=
  match s with
  | PP_Unreachable :: _ => true
  | _ => false
  end.

(** Modelled from the spec: [pushToken] appends the token to the line under
    construction. *)
Definition pushToken (P : UnwrappedLineParser) (t : FormatToken) :=
  set_Line P (with_Tokens (Line P) (Tokens (Line P) ++ [UnwrappedLineNode_of t])).

(** Modelled from the spec: [addUnwrappedLine] hands the line under
    construction, unless it is empty, to the queue [CurrentLines] selects;
    a line that goes to [Lines] is followed at once by the directives
    buffered while it was unfinished. *)
Definition addUnwrappedLine (P : UnwrappedLineParser) : UnwrappedLineParser :=
  match Tokens (Line P) with
  | [] => P
  | _ :: _ =>
      let cleared := with_Tokens (Line P) [] in
      match CurrentLines P with
      | ToPreprocessorDirectives =>
          {| Line := cleared; Lines := Lines P;
             PreprocessorDirectives := PreprocessorDirectives P ++ [Line P];
             CurrentLines := CurrentLines P;
             DeclarationScopeStack := DeclarationScopeStack P;
             StructuralError := StructuralError P; PPStack := PPStack P;
             PreBlockLine := PreBlockLine P; Position := Position P |}
      | ToLines =>
          {| Line := cleared;
             Lines := Lines P ++ [Line P] ++ PreprocessorDirectives P;
             PreprocessorDirectives := [];
             CurrentLines := CurrentLines P;
             DeclarationScopeStack := DeclarationScopeStack P;
             StructuralError := StructuralError P; PPStack := PPStack P;
             PreBlockLine := PreBlockLine P; Position := Position P |}
      end
  end.

(** Modelled from the spec: [pushPPConditional] opens a conditional branch;
    inside an unreachable branch the new one is unreachable too. *)
Definition pushPPConditional (P : UnwrappedLineParser) :=
  set_PPStack P
    ((if in_unreachable (PPStack P) then PP_Unreachable else PP_Conditional)
     :: PPStack P).

(** Modelled from the spec: closing the innermost branch, if there is
    one. *)
Definition popPPStack (P : UnwrappedLineParser) :=
  set_PPStack P (tl (PPStack P)).

(** Modelled from the spec: [parsePPIf], at the token after [#if]. *)
Definition parsePPIf (P : UnwrappedLineParser) (cond : FormatToken) :=
  if is_false_condition cond
  then set_PPStack P (PP_Unreachable :: PPStack P)
  else pushPPConditional P.

(** Modelled from the spec: [parsePPElse], which [#elif] shares: the
    branch before it is closed and the next one opened. *)
Definition parsePPElse (P : UnwrappedLineParser) :=
  pushPPConditional (popPPStack P).

(** Modelled from the spec: [parsePPEndIf]. *)
Definition parsePPEndIf (P : UnwrappedLineParser) := popPPStack P.

(** Modelled from the spec: a new line for a preprocessor directive. *)
Definition directive_line (ts : list UnwrappedLineNode) : UnwrappedLine :=
  {| Tokens := ts; Level := Level UnwrappedLine_new;
     InPPDirective := true;
     MustBeDeclaration := MustBeDeclaration UnwrappedLine_new |}.

(** Modelled from the spec: entering a directive at its [#]. The line under
    construction is parked and a new line is begun for the directive; if
    the parked line has tokens, the directive's lines go to
    [PreprocessorDirectives] until it is finished. *)
Definition beginPPDirective (P : UnwrappedLineParser) (hash : FormatToken) :=
  let interrupted := Line P in
  let target :=
    match Tokens interrupted with
    | [] => CurrentLines P
    | _ :: _ => ToPreprocessorDirectives
    end in
  {| Line := directive_line [UnwrappedLineNode_of hash];
     Lines := Lines P;
     PreprocessorDirectives := PreprocessorDirectives P;
     CurrentLines := target;
     DeclarationScopeStack := DeclarationScopeStack P;
     StructuralError := StructuralError P; PPStack := PPStack P;
     PreBlockLine := interrupted; Position := AtKeyword |}.

(** Modelled from the spec: an [#if] whose line ends before any condition
    opens an ordinary conditional branch. *)
Definition finishCondition (P : UnwrappedLineParser) :=
  match Position P with
  | AtCondition => set_Position (pushPPConditional P) InBody
  | _ => P
  end.

(** Modelled from the spec: leaving a directive. Its line is handed over,
    the parked line comes back and [CurrentLines] points to [Lines] again. *)
Definition endPPDirective (P : UnwrappedLineParser) :=
  let P1 := addUnwrappedLine P in
  set_CurrentLines (set_Line P1 (PreBlockLine P1)) ToLines.

(** Modelled from the spec: [parsePPDirective], one token at a time. *)
Definition parsePPDirective (P : UnwrappedLineParser) (t : FormatToken) :=
  let P1 := pushToken P t in
  match Position P with
  | AtKeyword =>
      match PPKeywordID t with
      | pp_if => set_Position P1 AtCondition
      | pp_ifdef | pp_ifndef => set_Position (pushPPConditional P1) InBody
      | pp_elif | pp_else => set_Position (parsePPElse P1) InBody
      | pp_endif => set_Position (parsePPEndIf P1) InBody
      | pp_define | pp_not_keyword => set_Position P1 InBody
      end
  | AtCondition => set_Position (parsePPIf P1 t) InBody
  | InBody => P1
  end.

(** Modelled from the spec: [readToken] and the loop that calls it. The
    parameter [parseStructuralElement] is the grouping of the tokens outside
    directives. It is given the parser, the tokens read so far (on which
    whatever the C++ keeps on its call stack depends), the token, and the
    tokens still to come, which it may look at and not consume. *)
Section Reading.
Variable parseStructuralElement :
  UnwrappedLineParser -> list FormatToken -> FormatToken -> list FormatToken
  -> UnwrappedLineParser.

(** Modelled from the spec: [readToken] outside a directive: a [#] that
    starts a source line opens a directive, every other token is grouped. *)
Definition readCode (P : UnwrappedLineParser) (before : list FormatToken)
    (t : FormatToken) (ahead : list FormatToken) :=
  if is_hash t && starts_line t then beginPPDirective P t
  else parseStructuralElement P before t ahead.

(** Modelled from the spec: [readToken]. A directive lasts to the end of its
    source line; while the branch it opened is unreachable the unit goes on,
    and what follows is kept in it as it stands. *)
Definition readToken (P : UnwrappedLineParser) (before : list FormatToken)
    (t : FormatToken) (ahead : list FormatToken) :=
  if InPPDirective (Line P) then
    if starts_line t then
      let P1 := finishCondition P in
      if in_unreachable (PPStack P1) then
        set_Position (pushToken P1 t) (if is_hash t then AtKeyword else InBody)
      else readCode (endPPDirective P1) before t ahead
    else parsePPDirective P t
  else readCode P before t ahead.

(** Modelled from the spec: the tokens [tokens] are read in the order of
    the stream; [before] are the tokens read before them and [after] the
    tokens that follow them. *)
Fixpoint run (P : UnwrappedLineParser) (before tokens after : list FormatToken)
    : UnwrappedLineParser :=
  match tokens with
  | [] => P
  | t :: tokens' =>
      run (readToken P before t (tokens' ++ after)) (before ++ [t])
          tokens' after
  end.

End Reading.

(** Modelled from the spec: a directive that is being read when a source
    line or the stream ends is left. *)
Definition leaveDirective (P : UnwrappedLineParser) :=
  if InPPDirective (Line P) then endPPDirective (finishCondition P) else P.

(** Modelled from the spec: the end of the token stream: what is still
    being built is handed over. *)
Definition parseFile_end (P : UnwrappedLineParser) :=
  addUnwrappedLine (leaveDirective P).

(** *** The layout of the source

    What the properties say of a token stream is read off the stream
    itself, from the attributes of its tokens and without the parser: its
    source lines, which of them are directives, and how deep each line lies
    inside code that is never compiled. *)

(** The token is the first of its source line. *)
Definition first_on_line (t : FormatToken) : bool :=
  if IsFirst t then true else HasUnescapedNewline t.

(** The source lines of a stream: a line ends before each token that is
    the first of its source line. *)
Fixpoint source_lines (ts : list FormatToken) : list (list FormatToken) :=
  match ts with
  | [] => []
  | t :: ts' =>
      match source_lines ts' with
      | (u :: l) :: ls =>
          if first_on_line u then [t] :: (u :: l) :: ls
          else (t :: u :: l) :: ls
      | _ => [[t]]
      end
  end.

(** A source line is a directive when it begins with a [#]. *)
Definition is_directive_line (l : list FormatToken) : bool :=
  match l with
  | t :: _ =>
      match Kind t with
      | tok_hash => first_on_line t
      | _ => false
      end
  | [] => false
  end.

(** A condition that is always false: the literal [0] or [false]. *)
Definition always_false (c : FormatToken) : bool :=
  match Kind c with
  | tok_kw_false => true
  | tok_numeric_constant =>
      if string_dec (TokenText c) "0" then true else false
  | _ => false
  end.

(** What a directive does to the conditional blocks: [#if] with an
    always-false condition, another [#if], [#ifdef] or [#ifndef], an
    [#else] or [#elif], an [#endif], or nothing. *)
Inductive Branching : Type :=
  | OpensFalse
  | Opens
  | Alternates
  | Closes
  | NoBranching.

Definition branching (l : list FormatToken) : Branching :=
  match l with
  | _ :: kw :: more =>
      match PPKeywordID kw with
      | pp_if =>
          match more with
          | c :: _ => if always_false c then OpensFalse else Opens
          | [] => Opens
          end
      | pp_ifdef | pp_ifndef => Opens
      | pp_elif | pp_else => Alternates
      | pp_endif => Closes
      | pp_define | pp_not_keyword => NoBranching
      end
  | _ => NoBranching
  end.

(** The depth of a place in the source inside code that is never compiled:
    0 where the code is reachable, and otherwise the number of conditional
    blocks open there, counted from the outermost always-false [#if]. *)
Definition depth_after_branching (depth : nat) (b : Branching) : nat :=
  match b with
  | OpensFalse => S depth
  | Opens => match depth with O => O | S _ => S depth end
  | Alternates => match depth with S (S _) => depth | _ => O end
  | Closes => Nat.pred depth
  | NoBranching => depth
  end.

Definition depth_after (depth : nat) (l : list FormatToken) : nat :=
  if is_directive_line l then depth_after_branching depth (branching l)
  else depth.

Definition depth_through (depth : nat) (lines : list (list FormatToken))
    : nat :=
  fold_left depth_after lines depth.



(** The tokens of the lines that go on with the unit open at [depth]. *)
Fixpoint unit_rest (depth : nat) (lines : list (list FormatToken))
    : list FormatToken :=
  match lines with
  | [] => []
  | l :: ls =>
      match depth with
      | O => []
      | S _ => l ++ unit_rest (depth_after depth l) ls
      end
  end.

(** The preprocessor units of the source lines [lines], in source order: a
    unit is a directive in reachable code with the source lines after it
    that are never compiled. *)
Fixpoint units_from (depth : nat) (lines : list (list FormatToken))
    : list (list FormatToken) :=
  match lines with
  | [] => []
  | l :: ls =>
      match depth with
      | O =>
          if is_directive_line l
          then (l ++ unit_rest (depth_after depth l) ls)
               :: units_from (depth_after depth l) ls
          else units_from (depth_after depth l) ls
      | S _ => units_from (depth_after depth l) ls
      end
  end.

(** The tokens of the source lines [lines] that are outside every unit, in
    source order. *)
Fixpoint code_from (depth : nat) (lines : list (list FormatToken))
    : list FormatToken :=
  match lines with
  | [] => []
  | l :: ls =>
      match depth with
      | O =>
          if is_directive_line l then code_from (depth_after depth l) ls
          else l ++ code_from (depth_after depth l) ls
      | S _ => code_from (depth_after depth l) ls
      end
  end.

Definition preprocessor_units (ts : list FormatToken)
    : list (list FormatToken) :=
  units_from 0 (source_lines ts).

Definition code_tokens (ts : list FormatToken) : list FormatToken :=
  code_from 0 (source_lines ts).

(** No token of [l] is the first of its source line. *)
Definition continues_line (l : list FormatToken) : bool :=
  forallb (fun t => negb (first_on_line t)) l.

(** [l] is one source line, or the rest of one. *)
Definition one_line (l : list FormatToken) : bool :=
  match l with
  | [] => false
  | _ :: body => continues_line body
  end.

(** [l] is one whole source line. *)
Definition whole_line (l : list FormatToken) : bool :=
  match l with
  | [] => false
  | t :: body => first_on_line t && continues_line body
  end.

(** The branch kinds that are open after a directive, given those open
    before it. *)
Definition branches_after (s : list PPBranchKind) (b : Branching)
    : list PPBranchKind :=
  match b with
  | OpensFalse => PP_Unreachable :: s
  | Opens =>
      match s with
      | PP_Unreachable :: _ => PP_Unreachable :: s
      | _ => PP_Conditional :: s
      end
  | Alternates =>
      match s with
      | _ :: PP_Unreachable :: s' => PP_Unreachable :: PP_Unreachable :: s'
      | _ :: s' => PP_Conditional :: s'
      | [] => [PP_Conditional]
      end
  | Closes => tl s
  | NoBranching => s
  end.

(** *** Vocabulary of the properties *)

(** The parser is inside a directive when the line under construction is a
    directive's. *)
Definition in_directive (P : UnwrappedLineParser) : bool :=
  InPPDirective (Line P).

(** The line a preprocessor unit [u] becomes. *)
Definition unit_line (u : list FormatToken) : UnwrappedLine :=
  directive_line (map UnwrappedLineNode_of u).

(** The line [L] with the tokens [ts] added. *)
Definition extend_line (L : UnwrappedLine) (ts : list FormatToken)
    : UnwrappedLine :=
  with_Tokens L (Tokens L ++ map UnwrappedLineNode_of ts).

(** No branch that is open in [s] is unreachable. *)
Definition all_reachable (s : list PPBranchKind) : bool :=
  forallb (fun k => match k with
                    | PP_Conditional => true
                    | PP_Unreachable => false
                    end) s.

(** The grouping [h] does no more with the token [t] than add it to the
    line under construction. *)
Definition extends_line
    (h : UnwrappedLineParser -> list FormatToken -> FormatToken
         -> list FormatToken -> UnwrappedLineParser)
    (t : FormatToken) : Prop :=
  forall (Q : UnwrappedLineParser) (before ahead : list FormatToken),
    h Q before t ahead = pushToken Q t.

(** [lines] are consecutive source lines, the first of them possibly
    begun before. *)
Definition well_cut (lines : list (list FormatToken)) : bool :=
  match lines with
  | [] => true
  | l :: ls => one_line l && forallb whole_line ls
  end.

(** The parser [S] stands outside every directive: since the state [P] it
    has added the tokens [code] to the line under construction and
    buffered the units [units], and has handed over no line. *)
Definition outside_directive (P S : UnwrappedLineParser)
    (code : list FormatToken) (units : list (list FormatToken)) : Prop :=
  Line S = extend_line (Line P) code /\
  Lines S = Lines P /\
  PreprocessorDirectives S =
    PreprocessorDirectives P ++ map unit_line units /\
  CurrentLines S = ToLines /\
  DeclarationScopeStack S = DeclarationScopeStack P /\
  StructuralError S = StructuralError P.

(** The parser [S] stands inside the unit [u], which is still open: the
    line it interrupted is parked. *)
Definition inside_unit (P S : UnwrappedLineParser)
    (code : list FormatToken) (units : list (list FormatToken))
    (u : list FormatToken) : Prop :=
  Line S = unit_line u /\
  PreBlockLine S = extend_line (Line P) code /\
  Lines S = Lines P /\
  PreprocessorDirectives S =
    PreprocessorDirectives P ++ map unit_line units /\
  CurrentLines S = ToPreprocessorDirectives /\
  DeclarationScopeStack S = DeclarationScopeStack P /\
  StructuralError S = StructuralError P.

(** [Q] differs from [P] at most in the line under construction, the
    branch-kind stack and the position inside the directive. *)
Definition same_queues (P Q : UnwrappedLineParser) : Prop :=
  Lines Q = Lines P /\
  PreprocessorDirectives Q = PreprocessorDirectives P /\
  CurrentLines Q = CurrentLines P /\
  DeclarationScopeStack Q = DeclarationScopeStack P /\
  StructuralError Q = StructuralError P /\
  PreBlockLine Q = PreBlockLine P.

(** *** Sample tokens and a sample grouping *)

Definition code_token (k : TokenKind) (text : string) (newline : bool) :=
  {| Kind := k; PPKeywordID := pp_not_keyword; TokenText := text;
     HasUnescapedNewline := newline; IsFirst := false |}.

Definition pp_token (k : PPKeywordKind) (text : string) :=
  {| Kind := tok_identifier; PPKeywordID := k; TokenText := text;
     HasUnescapedNewline := false; IsFirst := false |}.

Definition hash_token : FormatToken := code_token tok_hash "#" true.

(** A grouping that ends a line after every [;] and nowhere else. *)
Definition line_per_statement (P : UnwrappedLineParser)
    (before : list FormatToken) (t : FormatToken)
    (ahead : list FormatToken) : UnwrappedLineParser :=
  match Kind t with
  | tok_semi => addUnwrappedLine (pushToken P t)
  | _ => pushToken P t
  end.

(** [#if 0], a line of stray braces, a nested [#ifdef X] with another stray
    brace and its [#endif], and the [#endif] of the [#if 0]. *)
Definition if0_line : list FormatToken :=
  [ hash_token; pp_token pp_if "if";
    code_token tok_numeric_constant "0" false ].

Definition garbage_line : list FormatToken :=
  [ code_token tok_r_brace "}" true; code_token tok_r_brace "}" false;
    code_token tok_l_brace "{" false ].

Definition ifdef_line : list FormatToken :=
  [ hash_token; pp_token pp_ifdef "ifdef";
    code_token tok_identifier "X" false ].

Definition nested_garbage : list FormatToken :=
  [ code_token tok_r_brace "}" true ].

Definition endif_line : list FormatToken :=
  [ hash_token; pp_token pp_endif "endif" ].

Definition if0_garbage : list FormatToken :=
  if0_line ++ garbage_line ++ ifdef_line ++ nested_garbage
  ++ endif_line ++ endif_line.

(** [int a =], then [#define X 1] and [#undef Y] on lines of their own,
    then [5] on the next line, the unit of the [#if 0] above, and the [;]
    after its [#endif]. *)
Definition stmt_head : list FormatToken :=
  [ code_token tok_identifier "int" true;
    code_token tok_identifier "a" false;
    code_token tok_other "=" false ].

Definition define_X : list FormatToken :=
  [ hash_token; pp_token pp_define "define";
    code_token tok_identifier "X" false;
    code_token tok_numeric_constant "1" false ].

Definition undef_Y : list FormatToken :=
  [ hash_token; pp_token pp_not_keyword "undef";
    code_token tok_identifier "Y" false ].

Definition five_token : FormatToken :=
  code_token tok_numeric_constant "5" true.

Definition semi_token : FormatToken := code_token tok_semi ";" true.

Definition interrupted_tail : list FormatToken :=
  define_X ++ undef_Y ++ [five_token] ++ if0_garbage.

(** The parser after [int a =]. *)
Definition after_stmt_head : UnwrappedLineParser :=
  run line_per_statement initial [] stmt_head [].

End LineBuilder.
(* ================================================================== *)
(** * Properties *)

(** ** Strict weak orders *)

Section StrictWeakOrderFacts.
Context {T : Type} (lt : T -> T -> bool) `{!StrictWeakOrder lt}.

Lemma swo_asym x y : lt x y = true -> lt y x = false.
Proof.
  intros Hxy. destruct (lt y x) eqn:Hyx; [|reflexivity].
  rewrite <- (swo_irrefl x). symmetry. now apply swo_trans with y.
Qed.

Lemma swo_lt_equiv_r x y z :
  lt x y = true -> lt y z = false -> lt z y = false -> lt x z = true.
Proof.
  intros Hxy Hyz Hzy. destruct (lt x z) eqn:Hxz; [reflexivity|].
  destruct (lt z x) eqn:Hzx.
  - rewrite (swo_trans z x y Hzx Hxy) in Hzy. discriminate.
  - destruct (swo_equiv_trans x z y Hxz Hzx Hzy Hyz) as [H _]. congruence.
Qed.

Lemma swo_lt_equiv_l x y z :
  lt x y = false -> lt y x = false -> lt y z = true -> lt x z = true.
Proof.
  intros Hxy Hyx Hyz. destruct (lt x z) eqn:Hxz; [reflexivity|].
  destruct (lt z x) eqn:Hzx.
  - rewrite (swo_trans y z x Hyz Hzx) in Hyx. discriminate.
  - destruct (swo_equiv_trans y x z Hyx Hxy Hxz Hzx) as [H _]. congruence.
Qed.

Lemma vector_lt_irrefl v : vector_lt lt v v = false.
Proof.
  induction v as [|x v IH]; [reflexivity|].
  cbn. now rewrite swo_irrefl.
Qed.

Lemma vector_lt_trans u v w :
  vector_lt lt u v = true -> vector_lt lt v w = true ->
  vector_lt lt u w = true.
Proof.
  revert v w. induction u as [|x u IH]; intros [|y v] [|z w]; cbn;
    try congruence.
  destruct (lt x y) eqn:Hxy.
  - intros _. destruct (lt y z) eqn:Hyz.
    + intros _. now rewrite (swo_trans x y z).
    + destruct (lt z y) eqn:Hzy; [discriminate|]. intros _.
      now rewrite (swo_lt_equiv_r x y z).
  - destruct (lt y x) eqn:Hyx; [discriminate|]. intros Huv.
    destruct (lt y z) eqn:Hyz.
    + intros _. now rewrite (swo_lt_equiv_l x y z).
    + destruct (lt z y) eqn:Hzy; [discriminate|]. intros Hvw.
      destruct (swo_equiv_trans x y z Hxy Hyx Hyz Hzy) as [-> ->].
      now apply IH with v.
Qed.

Lemma vector_lt_equiv_trans u v w :
  vector_lt lt u v = false -> vector_lt lt v u = false ->
  vector_lt lt v w = false -> vector_lt lt w v = false ->
  vector_lt lt u w = false /\ vector_lt lt w u = false.
Proof.
  revert v w. induction u as [|x u IH]; intros [|y v] [|z w]; cbn;
    try congruence; auto.
  destruct (lt x y) eqn:Hxy; [discriminate|].
  destruct (lt y x) eqn:Hyx; [discriminate|].
  destruct (lt y z) eqn:Hyz; [discriminate|].
  destruct (lt z y) eqn:Hzy; [discriminate|].
  destruct (swo_equiv_trans x y z Hxy Hyx Hyz Hzy) as [-> ->].
  apply IH.
Qed.

#[export] Instance vector_lt_swo : StrictWeakOrder (vector_lt lt).
Proof.
  constructor.
  - apply vector_lt_irrefl.
  - apply vector_lt_trans.
  - apply vector_lt_equiv_trans.
Qed.
End StrictWeakOrderFacts.

(** ** Lexicographic comparison of key tuples *)

Lemma lex_compare_refl k : lex_compare k k = Eq.
Proof.
  induction k as [|x k IH]; [reflexivity|].
  cbn [lex_compare]. now rewrite N.compare_refl.
Qed.

Lemma lex_compare_eq k l : lex_compare k l = Eq -> k = l.
Proof.
  revert l. induction k as [|x k IH]; intros [|y l]; cbn [lex_compare];
    try discriminate; [reflexivity|].
  destruct (N.compare_spec x y) as [->| |]; try discriminate.
  intros H. f_equal. now apply IH.
Qed.

Lemma lex_compare_antisym k l : lex_compare l k = CompOpp (lex_compare k l).
Proof.
  revert l. induction k as [|x k IH]; intros [|y l]; cbn [lex_compare];
    try reflexivity.
  rewrite (N.compare_antisym x y).
  destruct (x ?= y); cbn [CompOpp]; auto.
Qed.

Lemma lex_compare_trans k l m :
  lex_compare k l = Lt -> lex_compare l m = Lt -> lex_compare k m = Lt.
Proof.
  revert l m. induction k as [|x k IH]; intros [|y l] [|z m];
    cbn [lex_compare]; try congruence.
  destruct (N.compare_spec x y) as [Exy|Lxy|Gxy];
    destruct (N.compare_spec y z) as [Eyz|Lyz|Gyz]; try discriminate;
    subst; intros H1 H2.
  - rewrite N.compare_refl. now apply IH with l.
  - now apply N.compare_lt_iff in Lyz as ->.
  - now apply N.compare_lt_iff in Lxy as ->.
  - assert (x < z) as Hxz by lia. now apply N.compare_lt_iff in Hxz as ->.
Qed.

Lemma set_first_inj a b : set_first a = set_first b -> a = b.
Proof. now destruct a, b. Qed.

Lemma clear_first_inj a b : clear_first a = clear_first b -> a = b.
Proof. now destruct a, b. Qed.


(** ** The comparison chains as lexicographic comparisons *)

Module IndenterOrder.
Import Indenter.


Lemma lex_then_unsigned (x y : N) (rest : bool) :
  (if negb (x =? y) then x <? y else rest) = lex_then (x ?= y) rest.
Proof.
  unfold N.ltb. destruct (N.eqb_spec x y) as [->|Hne]; cbn [negb].
  - now rewrite N.compare_refl.
  - destruct (N.compare_spec x y); [contradiction|reflexivity..].
Qed.

Lemma lex_then_set_first (a b : bool) (rest : bool) :
  (if negb (Bool.eqb a b) then a else rest) =
  lex_then (set_first a ?= set_first b) rest.
Proof. now destruct a, b. Qed.

Lemma lex_then_clear_first (a b : bool) (rest : bool) :
  (if negb (Bool.eqb a b) then bool_lt a b else rest) =
  lex_then (clear_first a ?= clear_first b) rest.
Proof. now destruct a, b. Qed.

Lemma lex_then_cons (x y : N) (k l : list N) (rest : bool) :
  lex_then (x ?= y) (lex_then (lex_compare k l) rest) =
  lex_then (lex_compare (x :: k) (y :: l)) rest.
Proof. cbn [lex_compare]. now destruct (x ?= y). Qed.

Lemma lex_then_nil (rest : bool) : rest = lex_then (lex_compare [] []) rest.
Proof. reflexivity. Qed.

(** Rewrites a chain of [if (F != Other.F) return ...;] statements into the
    verdict of the three-way comparison of the key tuples. *)
Ltac chain_to_keys :=
  rewrite ?lex_then_unsigned, ?lex_then_set_first, ?lex_then_clear_first;
  match goal with
  | |- context [lex_then (_ ?= _) ?r] =>
      lazymatch r with
      | lex_then _ _ => fail
      | _ => rewrite (lex_then_nil r)
      end
  end;
  rewrite ?lex_then_cons.

Lemma ParenState_lt_keys A B :
  ParenState_lt A B =
  lex_then (lex_compare (ParenState_keys A) (ParenState_keys B)) false.
Proof. unfold ParenState_lt, ParenState_keys. chain_to_keys. reflexivity. Qed.

Lemma LineState_lt_keys A B :
  LineState_lt A B =
  lex_then (lex_compare (LineState_keys A) (LineState_keys B))
    (if IgnoreStackForComparison A || IgnoreStackForComparison B then false
     else vector_lt ParenState_lt (Stack A) (Stack B)).
Proof. unfold LineState_lt, LineState_keys. chain_to_keys. reflexivity. Qed.

Lemma lex_then_false_Lt c : lex_then c false = true <-> c = Lt.
Proof. destruct c; cbn; split; congruence. Qed.

Lemma ParenState_lt_iff A B :
  ParenState_lt A B = true <->
  lex_compare (ParenState_keys A) (ParenState_keys B) = Lt.
Proof. rewrite ParenState_lt_keys. apply lex_then_false_Lt. Qed.

Lemma ParenState_equiv_iff A B :
  ParenState_equiv A B = true <-> ParenState_keys A = ParenState_keys B.
Proof.
  unfold ParenState_equiv. rewrite !ParenState_lt_keys.
  rewrite (lex_compare_antisym (ParenState_keys A) (ParenState_keys B)).
  split.
  - destruct (lex_compare _ _) eqn:E; cbn; try discriminate.
    intros _. now apply lex_compare_eq.
  - intros ->. now rewrite lex_compare_refl.
Qed.

#[global] Instance ParenState_lt_swo : StrictWeakOrder ParenState_lt.
Proof.
  constructor.
  - intros x. rewrite ParenState_lt_keys. now rewrite lex_compare_refl.
  - intros x y z. rewrite !ParenState_lt_iff. apply lex_compare_trans.
  - intros x y z Hxy Hyx Hyz Hzy.
    assert (ParenState_keys x = ParenState_keys y) as Exy
      by (apply ParenState_equiv_iff; unfold ParenState_equiv;
          now rewrite Hxy, Hyx).
    assert (ParenState_keys y = ParenState_keys z) as Eyz
      by (apply ParenState_equiv_iff; unfold ParenState_equiv;
          now rewrite Hyz, Hzy).
    rewrite !ParenState_lt_keys, Exy, Eyz, lex_compare_refl. now split.
Qed.

(** ** The search-state comparison, field by field *)

Example ParenState_lt_frames :
  ParenState_lt frame4 frame8 = true /\ ParenState_lt frame8 frame4 = false.
Proof. split; reflexivity. Qed.

Example vector_lt_prefix :
  vector_lt ParenState_lt [frame4] [frame4; frame8] = true /\
  vector_lt ParenState_lt [frame4; frame8] [frame4] = false.
Proof. split; reflexivity. Qed.

Example LineState_lt_later_token :
  LineState_lt stateC stateD = true /\ LineState_lt stateD stateC = false.
Proof. split; reflexivity. Qed.

Lemma LineState_scalars_agree_keys A B :
  LineState_scalars_agree A B <-> LineState_keys A = LineState_keys B.
Proof.
  unfold LineState_scalars_agree, LineState_keys. split.
  - intros (-> & -> & -> & -> & -> & -> & ->). reflexivity.
  - intros H. injection H as H1 H2 H3 H4 H5 H6 H7.
    apply set_first_inj in H3. now repeat split.
Qed.

Lemma LineState_lt_scalars_agree A B :
  LineState_scalars_agree A B ->
  LineState_lt A B =
  if IgnoreStackForComparison A || IgnoreStackForComparison B then false
  else vector_lt ParenState_lt (Stack A) (Stack B).
Proof.
  intros H. apply LineState_scalars_agree_keys in H.
  now rewrite LineState_lt_keys, H, lex_compare_refl.
Qed.

Ltac sequence_step x y :=
  destruct (N.eqb_spec x y) as [->|?]; cbn [negb];
  [ | rewrite N.ltb_lt; split;
      [ intros ?; intuition (auto; lia)
      | intros H; decompose [or and] H; clear H;
        first [assumption | lia | congruence] ] ].

(** C1. [LineState::operator<] decides [A < B] by the first field, in the
    order NextToken, Column, LineContainsContinuedForLoopSection, ParenLevel,
    StartOfLineLevel, LowestLevelOnLine, StartOfStringLiteral, on which the
    two states differ, and by the ParenState stacks when none differs and
    neither state has IgnoreStackForComparison set; when the flag is set on
    either state and the seven scalar fields agree, neither state is smaller
    than the other, whatever their stacks hold. *)
Theorem LineState_lt_sequence (A B : LineState) :
  (LineState_lt A B = true <->
     NextToken A < NextToken B
     \/ (NextToken A = NextToken B /\ Column A < Column B)
     \/ (NextToken A = NextToken B /\ Column A = Column B /\
         LineContainsContinuedForLoopSection A = true /\
         LineContainsContinuedForLoopSection B = false)
     \/ (NextToken A = NextToken B /\ Column A = Column B /\
         LineContainsContinuedForLoopSection A =
           LineContainsContinuedForLoopSection B /\
         ParenLevel A < ParenLevel B)
     \/ (NextToken A = NextToken B /\ Column A = Column B /\
         LineContainsContinuedForLoopSection A =
           LineContainsContinuedForLoopSection B /\
         ParenLevel A = ParenLevel B /\
         StartOfLineLevel A < StartOfLineLevel B)
     \/ (NextToken A = NextToken B /\ Column A = Column B /\
         LineContainsContinuedForLoopSection A =
           LineContainsContinuedForLoopSection B /\
         ParenLevel A = ParenLevel B /\
         StartOfLineLevel A = StartOfLineLevel B /\
         LowestLevelOnLine A < LowestLevelOnLine B)
     \/ (NextToken A = NextToken B /\ Column A = Column B /\
         LineContainsContinuedForLoopSection A =
           LineContainsContinuedForLoopSection B /\
         ParenLevel A = ParenLevel B /\
         StartOfLineLevel A = StartOfLineLevel B /\
         LowestLevelOnLine A = LowestLevelOnLine B /\
         StartOfStringLiteral A < StartOfStringLiteral B)
     \/ (LineState_scalars_agree A B /\
         IgnoreStackForComparison A = false /\
         IgnoreStackForComparison B = false /\
         vector_lt ParenState_lt (Stack A) (Stack B) = true))
  /\
  (LineState_scalars_agree A B ->
   IgnoreStackForComparison A = true \/ IgnoreStackForComparison B = true ->
   LineState_lt A B = false /\ LineState_lt B A = false).
Proof.
  split.
  - unfold LineState_scalars_agree, LineState_lt.
    destruct A as [cA nA fA pA sA lA qA stA iA fiA liA].
    destruct B as [cB nB fB pB sB lB qB stB iB fiB liB].
    cbn [NextToken Column LineContainsContinuedForLoopSection ParenLevel
         StartOfLineLevel LowestLevelOnLine StartOfStringLiteral Stack
         IgnoreStackForComparison].
    sequence_step nA nB.
    sequence_step cA cB.
    destruct fA, fB; cbn [Bool.eqb negb];
      try (split; [ intros ?; intuition (auto; lia)
                  | intros H; decompose [or and] H; clear H;
                    first [assumption | lia | congruence] ]).
    all: sequence_step pA pB.
    all: sequence_step sA sB.
    all: sequence_step lA lB.
    all: sequence_step qA qB.
    all: destruct iA, iB; cbn [orb];
      (split; [ intros ?; first [discriminate | intuition auto]
              | intros H; decompose [or and] H; clear H;
                first [assumption | lia | congruence] ]).
  - intros Hagree Hign.
    assert (LineState_scalars_agree B A) as Hagree'.
    { unfold LineState_scalars_agree in *. intuition congruence. }
    rewrite (LineState_lt_scalars_agree A B Hagree).
    rewrite (LineState_lt_scalars_agree B A Hagree').
    destruct Hign as [-> | ->]; rewrite ?orb_true_r; cbn [orb]; auto.
Qed.

Lemma LineState_lt_sequence_witness :
  LineState_lt stateA stateB = false /\ LineState_lt stateB stateA = false.
Proof.
  apply (proj2 (LineState_lt_sequence stateA stateB)).
  - unfold LineState_scalars_agree. cbn. repeat split.
  - right. reflexivity.
Defined.

(** ** The search-state comparison as an order *)

Lemma LineState_lt_irrefl A : LineState_lt A A = false.
Proof.
  rewrite LineState_lt_keys, lex_compare_refl. cbn [lex_then].
  destruct (IgnoreStackForComparison A); cbn [orb]; [reflexivity|].
  apply vector_lt_irrefl. exact ParenState_lt_swo.
Qed.

Lemma LineState_lt_trans A B C :
  LineState_lt A B = true -> LineState_lt B C = true ->
  LineState_lt A C = true.
Proof.
  rewrite !LineState_lt_keys.
  destruct (lex_compare (LineState_keys A) (LineState_keys B)) eqn:EAB;
    cbn [lex_then]; try discriminate.
  - apply lex_compare_eq in EAB. rewrite EAB.
    destruct (lex_compare (LineState_keys B) (LineState_keys C));
      cbn [lex_then]; try discriminate; auto.
    destruct (IgnoreStackForComparison A), (IgnoreStackForComparison B),
      (IgnoreStackForComparison C); cbn [orb]; try discriminate.
    apply vector_lt_trans. exact ParenState_lt_swo.
  - intros _.
    destruct (lex_compare (LineState_keys B) (LineState_keys C)) eqn:EBC;
      cbn [lex_then]; try discriminate.
    + apply lex_compare_eq in EBC. now rewrite <- EBC, EAB.
    + now rewrite (lex_compare_trans _ _ _ EAB EBC).
Qed.

Lemma LineState_lt_asym A B :
  LineState_lt A B = true -> LineState_lt B A = false.
Proof.
  intros HAB. destruct (LineState_lt B A) eqn:HBA; [|reflexivity].
  rewrite <- (LineState_lt_irrefl A). symmetry.
  now apply LineState_lt_trans with B.
Qed.

Lemma LineState_equiv_iff A B :
  LineState_equiv A B = true <->
  LineState_keys A = LineState_keys B /\
  (IgnoreStackForComparison A = true \/
   IgnoreStackForComparison B = true \/
   (vector_lt ParenState_lt (Stack A) (Stack B) = false /\
    vector_lt ParenState_lt (Stack B) (Stack A) = false)).
Proof.
  unfold LineState_equiv. rewrite !LineState_lt_keys.
  rewrite (lex_compare_antisym (LineState_keys A) (LineState_keys B)).
  destruct (lex_compare (LineState_keys A) (LineState_keys B)) eqn:E;
    cbn [CompOpp lex_then negb andb].
  - apply lex_compare_eq in E. rewrite E.
    destruct (IgnoreStackForComparison A), (IgnoreStackForComparison B);
      cbn [orb negb andb]; try tauto.
    rewrite andb_true_iff, !negb_true_iff.
    intuition discriminate.
  - split; [discriminate|]. intros [H _]. rewrite H, lex_compare_refl in E.
    discriminate.
  - split; [discriminate|]. intros [H _]. rewrite H, lex_compare_refl in E.
    discriminate.
Qed.

Lemma LineState_equiv_trans_guarded A B C :
  IgnoreStackForComparison B = false \/
  IgnoreStackForComparison A = true \/
  IgnoreStackForComparison C = true ->
  LineState_equiv A B = true -> LineState_equiv B C = true ->
  LineState_equiv A C = true.
Proof.
  rewrite !LineState_equiv_iff. intros Hflag [KAB SAB] [KBC SBC].
  split; [congruence|].
  destruct (IgnoreStackForComparison A); [now left|].
  destruct (IgnoreStackForComparison C); [now (right; left)|].
  right; right.
  destruct Hflag as [HB | [? | ?]]; try discriminate.
  rewrite HB in *.
  destruct SAB as [? | [? | [H1 H2]]]; try discriminate.
  destruct SBC as [? | [? | [H3 H4]]]; try discriminate.
  apply (vector_lt_equiv_trans ParenState_lt _ (Stack B)); assumption.
Qed.

(** C2, as the claim states it, fails: with IgnoreStackForComparison set on
    the middle state only, [stateA] and [stateC] are each incomparable to
    [stateB], yet [stateA] compares less than [stateC]. *)
Lemma LineState_equiv_not_transitive :
  LineState_equiv stateA stateB = true /\
  LineState_equiv stateB stateC = true /\
  LineState_lt stateA stateC = true /\
  LineState_equiv stateA stateC = false.
Proof. repeat split; vm_compute; reflexivity. Qed.

(** C2, amended. [LineState::operator<] is irreflexive, asymmetric and
    transitive on all search states. Its incomparability relation is
    transitive through a middle state [B] whenever [B] has
    IgnoreStackForComparison clear, or [A] or [C] has it set; in particular
    among states that all carry the same value of the flag. *)
Theorem LineState_lt_strict_order (A B C : LineState) :
  LineState_lt A A = false /\
  (LineState_lt A B = true -> LineState_lt B A = false) /\
  (LineState_lt A B = true -> LineState_lt B C = true ->
   LineState_lt A C = true) /\
  (IgnoreStackForComparison B = false \/
   IgnoreStackForComparison A = true \/
   IgnoreStackForComparison C = true ->
   LineState_equiv A B = true -> LineState_equiv B C = true ->
   LineState_equiv A C = true).
Proof.
  split; [apply LineState_lt_irrefl|].
  split; [apply LineState_lt_asym|].
  split; [apply LineState_lt_trans|].
  apply LineState_equiv_trans_guarded.
Qed.

Lemma LineState_lt_strict_order_witness :
  LineState_lt stateC stateA = false /\
  LineState_lt stateA stateD = true /\
  LineState_equiv stateB stateB = true.
Proof.
  split; [|split].
  - apply (proj1 (proj2 (LineState_lt_strict_order stateA stateC stateD))).
    reflexivity.
  - apply (proj1 (proj2 (proj2
             (LineState_lt_strict_order stateA stateC stateD))));
      reflexivity.
  - apply (proj2 (proj2 (proj2
             (LineState_lt_strict_order stateB stateA stateB)))).
    + left. reflexivity.
    + reflexivity.
    + reflexivity.
Defined.

(** ** What the comparisons leave out *)

Lemma ParenState_keys_complete A B :
  ParenState_keys A = ParenState_keys B ->
  NestedNameSpecifierContinuation A = NestedNameSpecifierContinuation B ->
  A = B.
Proof.
  destruct A, B. unfold ParenState_keys. cbn.
  intros H Hn. injection H as -> -> -> H4 -> H6 H7 H8 -> -> -> -> -> H14 H15.
  apply set_first_inj in H4, H6, H7, H8.
  apply clear_first_inj in H14, H15.
  now subst.
Qed.

Lemma ParenState_lt_total_on_keys A B :
  ParenState_keys A <> ParenState_keys B ->
  ParenState_lt A B = true \/ ParenState_lt B A = true.
Proof.
  intros Hne. rewrite !ParenState_lt_iff.
  rewrite (lex_compare_antisym (ParenState_keys A) (ParenState_keys B)).
  destruct (lex_compare (ParenState_keys A) (ParenState_keys B)) eqn:E;
    cbn [CompOpp]; auto.
  apply lex_compare_eq in E. contradiction.
Qed.

(** C3. [ParenState::operator<] never reads NestedNameSpecifierContinuation:
    [frame4] and [frame4_nns] differ in that field alone and neither compares
    less than the other, and the same holds of any frame and any two values
    of the field. Frames that differ in one of the fifteen other fields are
    ordered one way or the other. *)
Theorem ParenState_lt_skips_NestedNameSpecifierContinuation :
  (frame4 <> frame4_nns /\
   ParenState_lt frame4 frame4_nns = false /\
   ParenState_lt frame4_nns frame4 = false) /\
  (forall (P : ParenState) (n m : N),
     ParenState_lt (set_NestedNameSpecifierContinuation P n)
                   (set_NestedNameSpecifierContinuation P m) = false) /\
  (forall A B : ParenState,
     ParenState_equiv A B = true <->
     ParenState_keys A = ParenState_keys B).
Proof.
  split; [|split].
  - split; [discriminate|]. split; reflexivity.
  - intros P n m. rewrite ParenState_lt_keys.
    change (ParenState_keys (set_NestedNameSpecifierContinuation P m))
      with (ParenState_keys (set_NestedNameSpecifierContinuation P n)).
    now rewrite lex_compare_refl.
  - apply ParenState_equiv_iff.
Qed.

(** C10. [LineState::operator<] reads neither FirstIndent nor Line: its
    verdict is the same whatever values the two fields take in either state,
    and two states that agree on the seven scalar fields it tests and on the
    stack are incomparable, whether or not their FirstIndent and Line
    differ. *)
Theorem LineState_lt_ignores_FirstIndent_Line (A B : LineState) :
  (forall fiA liA fiB liB : N,
     LineState_lt (set_FirstIndent_Line A fiA liA)
                  (set_FirstIndent_Line B fiB liB) = LineState_lt A B) /\
  (LineState_scalars_agree A B -> Stack A = Stack B ->
   LineState_lt A B = false /\ LineState_lt B A = false).
Proof.
  split; [reflexivity|].
  intros Hagree Hstack.
  assert (LineState_scalars_agree B A) as Hagree'.
  { unfold LineState_scalars_agree in *. intuition congruence. }
  rewrite (LineState_lt_scalars_agree A B Hagree).
  rewrite (LineState_lt_scalars_agree B A Hagree').
  rewrite Hstack, (vector_lt_irrefl ParenState_lt).
  now destruct (_ || _), (_ || _).
Qed.

Lemma LineState_lt_ignores_FirstIndent_Line_witness :
  LineState_lt stateA (set_FirstIndent_Line stateA 2 640) = false /\
  LineState_lt (set_FirstIndent_Line stateA 2 640) stateA = false.
Proof.
  apply (proj2 (LineState_lt_ignores_FirstIndent_Line
                  stateA (set_FirstIndent_Line stateA 2 640))).
  - unfold LineState_scalars_agree. cbn. repeat split.
  - reflexivity.
Defined.

End IndenterOrder.

(** ** Further properties of the two comparison operators *)

Module IndenterOrderMore.
Import Indenter IndenterStacks IndenterOrder.

(** *** Nesting frames *)

(** [ParenState::operator<] is a strict weak order: irreflexive, asymmetric,
    transitive, and with a transitive incomparability relation, so it is a
    valid element comparison for [std::lexicographical_compare]. *)
Theorem ParenState_lt_strict_weak_order (A B C : ParenState) :
  ParenState_lt A A = false /\
  (ParenState_lt A B = true -> ParenState_lt B A = false) /\
  (ParenState_lt A B = true -> ParenState_lt B C = true ->
   ParenState_lt A C = true) /\
  (ParenState_equiv A B = true -> ParenState_equiv B C = true ->
   ParenState_equiv A C = true).
Proof.
  split; [apply (swo_irrefl (lt := ParenState_lt))|].
  split; [apply (swo_asym ParenState_lt)|].
  split; [apply (swo_trans (lt := ParenState_lt))|].
  rewrite !ParenState_equiv_iff. congruence.
Qed.

Lemma ParenState_lt_strict_weak_order_witness :
  ParenState_lt frame8 frame4 = false /\
  ParenState_lt frame4 (ParenState_new 8 6 false false) = true /\
  ParenState_equiv frame4 frame4 = true.
Proof.
  pose proof (ParenState_lt_strict_weak_order
                frame4 frame8 (ParenState_new 8 6 false false))
    as (_ & Hasym & Htrans & _).
  pose proof (ParenState_lt_strict_weak_order frame4 frame4_nns frame4)
    as (_ & _ & _ & Hequiv).
  split; [exact (Hasym eq_refl)|].
  split; [exact (Htrans eq_refl eq_refl)|].
  exact (Hequiv eq_refl eq_refl).
Defined.

(** Two frames with the same NestedNameSpecifierContinuation are equal, or
    exactly one of them compares less than the other: on the fifteen fields
    it tests, [ParenState::operator<] is a strict total order. *)
Theorem ParenState_lt_trichotomy (A B : ParenState) :
  NestedNameSpecifierContinuation A = NestedNameSpecifierContinuation B ->
  (A = B /\ ParenState_lt A B = false /\ ParenState_lt B A = false) \/
  (A <> B /\ ParenState_lt A B = true /\ ParenState_lt B A = false) \/
  (A <> B /\ ParenState_lt A B = false /\ ParenState_lt B A = true).
Proof.
  intros Hn. rewrite !ParenState_lt_keys.
  rewrite (lex_compare_antisym (ParenState_keys A) (ParenState_keys B)).
  destruct (lex_compare (ParenState_keys A) (ParenState_keys B)) eqn:E;
    cbn [CompOpp lex_then].
  - left. apply lex_compare_eq in E.
    split; [now apply ParenState_keys_complete|now split].
  - right. left. split; [|now split].
    intros ->. rewrite lex_compare_refl in E. discriminate.
  - right. right. split; [|now split].
    intros ->. rewrite lex_compare_refl in E. discriminate.
Qed.

Lemma ParenState_lt_trichotomy_witness :
  (frame4 = frame8 /\
   ParenState_lt frame4 frame8 = false /\ ParenState_lt frame8 frame4 = false) \/
  (frame4 <> frame8 /\
   ParenState_lt frame4 frame8 = true /\ ParenState_lt frame8 frame4 = false) \/
  (frame4 <> frame8 /\
   ParenState_lt frame4 frame8 = false /\ ParenState_lt frame8 frame4 = true).
Proof. exact (ParenState_lt_trichotomy frame4 frame8 eq_refl). Defined.

(** Frames as the constructor makes them are ordered by the constructor's
    arguments: by Indent, then LastSpace, then AvoidBinPacking and then
    NoLineBreak, a frame with the flag set before one with it clear. *)
Theorem ParenState_lt_new
    (indent lastSpace : N) (avoidBinPacking noLineBreak : bool)
    (indent' lastSpace' : N) (avoidBinPacking' noLineBreak' : bool) :
  ParenState_lt
    (ParenState_new indent lastSpace avoidBinPacking noLineBreak)
    (ParenState_new indent' lastSpace' avoidBinPacking' noLineBreak') = true
  <->
  indent < indent'
  \/ (indent = indent' /\ lastSpace < lastSpace')
  \/ (indent = indent' /\ lastSpace = lastSpace' /\
      avoidBinPacking = true /\ avoidBinPacking' = false)
  \/ (indent = indent' /\ lastSpace = lastSpace' /\
      avoidBinPacking = avoidBinPacking' /\
      noLineBreak = true /\ noLineBreak' = false).
Proof.
  unfold ParenState_lt, ParenState_new.
  cbn [Indent LastSpace FirstLessLess BreakBeforeClosingBrace QuestionColumn
       AvoidBinPacking BreakBeforeParameter NoLineBreak ColonPos
       StartOfFunctionCall StartOfArraySubscripts CallContinuation
       VariablePos ContainsLineBreak ContainsUnwrappedBuilder].
  destruct (N.eqb_spec indent indent') as [->|Hi]; cbn [negb].
  2: { rewrite N.ltb_lt. split; [tauto|].
       intros [H|[[H _]|[[H _]|[H _]]]]; [exact H|contradiction..]. }
  destruct (N.eqb_spec lastSpace lastSpace') as [->|Hl]; cbn [negb].
  2: { rewrite N.ltb_lt. split; [tauto|].
       intros [H|[[_ H]|[(_ & H & _)|(_ & H & _)]]];
         [lia|exact H|contradiction..]. }
  change (0 =? 0) with true. cbn [negb Bool.eqb].
  destruct avoidBinPacking, avoidBinPacking', noLineBreak, noLineBreak';
    cbn [Bool.eqb negb bool_lt andb];
    split; try discriminate; try (intros _; tauto);
    intros [H|[[_ H]|[(_ & _ & H1 & H2)|(_ & _ & H0 & H1 & H2)]]];
    try lia; try discriminate; try reflexivity.
Qed.

(** *** Stacks of frames *)

Lemma Stack_lt_keys v : forall w v' w',
  Stack_keys v = Stack_keys v' -> Stack_keys w = Stack_keys w' ->
  vector_lt ParenState_lt v w = vector_lt ParenState_lt v' w'.
Proof.
  unfold Stack_keys.
  induction v as [|x v IH]; intros [|y w] [|x' v'] [|y' w'] Hv Hw;
    try discriminate; try reflexivity.
  pose proof (f_equal (hd []) Hv) as Hx.
  pose proof (f_equal (@tl _) Hv) as Hv'.
  pose proof (f_equal (hd []) Hw) as Hy.
  pose proof (f_equal (@tl _) Hw) as Hw'.
  cbn [map hd tl] in Hx, Hv', Hy, Hw'.
  cbn [vector_lt]. rewrite !ParenState_lt_keys, Hx, Hy.
  now rewrite (IH w v' w' Hv' Hw').
Qed.

Lemma Stack_equiv_keys v : forall w,
  vector_lt ParenState_lt v w = false /\
  vector_lt ParenState_lt w v = false <->
  Stack_keys v = Stack_keys w.
Proof.
  unfold Stack_keys.
  induction v as [|x v IH]; intros [|y w]; cbn [vector_lt map].
  - tauto.
  - split; [intros [H _]; discriminate|discriminate].
  - split; [intros [_ H]; discriminate|discriminate].
  - pose proof (ParenState_equiv_iff x y) as Hxy.
    unfold ParenState_equiv in Hxy.
    destruct (ParenState_lt x y), (ParenState_lt y x); cbn in Hxy.
    + split; [intros [H _]; discriminate|].
      intros H. apply (f_equal (hd [])) in H. apply Hxy in H. discriminate.
    + split; [intros [H _]; discriminate|].
      intros H. apply (f_equal (hd [])) in H. apply Hxy in H. discriminate.
    + split; [intros [_ H]; discriminate|].
      intros H. apply (f_equal (hd [])) in H. apply Hxy in H. discriminate.
    + rewrite (IH w). split.
      * intros H. f_equal; [now apply Hxy|exact H].
      * intros H. exact (f_equal (@tl _) H).
Qed.

Lemma Stack_lt_extension s : forall f t,
  vector_lt ParenState_lt s (s ++ f :: t) = true /\
  vector_lt ParenState_lt (s ++ f :: t) s = false.
Proof.
  induction s as [|x s IH]; intros f t; [now split|].
  cbn [app vector_lt].
  rewrite (swo_irrefl (lt := ParenState_lt) x). apply IH.
Qed.

(** The comparison of two stacks, [Stack < Other.Stack], is a strict weak
    order: no stack is less than itself, the comparison is asymmetric and
    transitive, and incomparable stacks form classes. *)
Theorem Stack_lt_strict_weak_order (u v w : list ParenState) :
  vector_lt ParenState_lt u u = false /\
  (vector_lt ParenState_lt u v = true ->
   vector_lt ParenState_lt v u = false) /\
  (vector_lt ParenState_lt u v = true -> vector_lt ParenState_lt v w = true ->
   vector_lt ParenState_lt u w = true) /\
  (vector_lt ParenState_lt u v = false /\
   vector_lt ParenState_lt v u = false ->
   vector_lt ParenState_lt v w = false /\
   vector_lt ParenState_lt w v = false ->
   vector_lt ParenState_lt u w = false /\
   vector_lt ParenState_lt w u = false).
Proof.
  split; [apply (vector_lt_irrefl ParenState_lt)|].
  split; [apply (swo_asym (vector_lt ParenState_lt))|].
  split; [apply (vector_lt_trans ParenState_lt)|].
  intros [H1 H2] [H3 H4].
  now apply (vector_lt_equiv_trans ParenState_lt u v w).
Qed.

Lemma Stack_lt_strict_weak_order_witness :
  vector_lt ParenState_lt [frame4; frame8] [frame4] = false /\
  vector_lt ParenState_lt [frame4] [frame8] = true /\
  (vector_lt ParenState_lt [frame4] [frame4] = false /\
   vector_lt ParenState_lt [frame4] [frame4] = false).
Proof.
  pose proof (Stack_lt_strict_weak_order
                [frame4] [frame4; frame8] [frame8])
    as (_ & Hasym & Htrans & _).
  pose proof (Stack_lt_strict_weak_order [frame4] [frame4_nns] [frame4])
    as (_ & _ & _ & Hequiv).
  split; [exact (Hasym eq_refl)|].
  split; [exact (Htrans eq_refl eq_refl)|].
  exact (Hequiv (conj eq_refl eq_refl) (conj eq_refl eq_refl)).
Defined.

(** *** Search states *)

Lemma LineState_view_parts A B :
  LineState_view A = LineState_view B ->
  LineState_keys A = LineState_keys B /\
  IgnoreStackForComparison A = IgnoreStackForComparison B /\
  Stack_keys (Stack A) = Stack_keys (Stack B).
Proof.
  unfold LineState_view. intros H. split; [|split].
  - exact (f_equal (fun v => fst (fst v)) H).
  - exact (f_equal (fun v => snd (fst v)) H).
  - exact (f_equal snd H).
Qed.

(** The verdict of [LineState::operator<] depends on nothing but the seven
    scalar fields it tests, the two IgnoreStackForComparison flags and, frame
    by frame, the fifteen fields [ParenState::operator<] tests: states that
    differ only in FirstIndent, in Line or in the
    NestedNameSpecifierContinuation of their frames can stand for each other
    on either side of the comparison. *)
Theorem LineState_lt_view (A A' B B' : LineState) :
  LineState_view A = LineState_view A' ->
  LineState_view B = LineState_view B' ->
  LineState_lt A B = LineState_lt A' B'.
Proof.
  intros HA HB.
  apply LineState_view_parts in HA as (HkA & HiA & HsA).
  apply LineState_view_parts in HB as (HkB & HiB & HsB).
  rewrite !LineState_lt_keys, HkA, HkB, HiA, HiB.
  now rewrite (Stack_lt_keys _ _ _ _ HsA HsB).
Qed.

Lemma LineState_lt_view_witness :
  LineState_lt stateA stateC =
  LineState_lt (set_FirstIndent_Line stateA_nns 2 640) stateC.
Proof.
  exact (LineState_lt_view stateA (set_FirstIndent_Line stateA_nns 2 640)
           stateC stateC eq_refl eq_refl).
Defined.

(** Which states the memoization takes for the same one: two states are
    incomparable under [LineState::operator<] exactly when they agree on the
    seven scalar fields and either one of them has IgnoreStackForComparison
    set or their stacks have the same depth and agree, frame by frame, on
    every field [ParenState::operator<] tests. *)
Theorem LineState_equiv_view (A B : LineState) :
  LineState_equiv A B = true <->
  LineState_scalars_agree A B /\
  (IgnoreStackForComparison A = true \/
   IgnoreStackForComparison B = true \/
   Stack_keys (Stack A) = Stack_keys (Stack B)).
Proof.
  rewrite LineState_equiv_iff, LineState_scalars_agree_keys,
    (Stack_equiv_keys (Stack A) (Stack B)).
  reflexivity.
Qed.

(** Of two states that agree on the scalar fields and compare their stacks,
    the one nested deeper, its stack the other's with more frames pushed,
    is the greater. *)
Theorem LineState_lt_deeper (A B : LineState) (f : ParenState)
    (pushed : list ParenState) :
  LineState_scalars_agree A B ->
  IgnoreStackForComparison A = false ->
  IgnoreStackForComparison B = false ->
  Stack B = Stack A ++ f :: pushed ->
  LineState_lt A B = true /\ LineState_lt B A = false.
Proof.
  intros Hagree HA HB Hstack.
  assert (LineState_scalars_agree B A) as Hagree'.
  { unfold LineState_scalars_agree in *. intuition congruence. }
  rewrite (LineState_lt_scalars_agree A B Hagree).
  rewrite (LineState_lt_scalars_agree B A Hagree').
  rewrite HA, HB, Hstack. cbn [orb].
  apply Stack_lt_extension.
Qed.

Lemma LineState_lt_deeper_witness :
  LineState_lt stateA stateA_deeper = true /\
  LineState_lt stateA_deeper stateA = false.
Proof.
  apply (LineState_lt_deeper stateA stateA_deeper frame8 []).
  - unfold LineState_scalars_agree. cbn. repeat split.
  - reflexivity.
  - reflexivity.
  - reflexivity.
Defined.

End IndenterOrderMore.

(** ** Protruding tokens *)

Module IndenterPenalty.
Import Indenter.

Lemma last_cons {A : Type} (l : list A) : forall x d : A,
  last (x :: l) d = last l x.
Proof.
  induction l as [|y l IH]; intros x d; [reflexivity|].
  change (last (x :: y :: l) d) with (last (y :: l) d).
  now rewrite !IH.
Qed.

Lemma breakLines_spec Style rest : forall Penalty current,
  breakLines Style Penalty current rest =
  (Penalty
   + PenaltyBreak Style * N.of_nat (List.length rest)
   + overflowPenalties Style (removelast (current :: rest)),
   last rest current).
Proof.
  induction rest as [|next rest IH]; intros Penalty current.
  - cbn. f_equal. lia.
  - cbn [breakLines]. rewrite IH.
    change (removelast (current :: next :: rest))
      with (current :: removelast (next :: rest)).
    unfold overflowPenalties. cbn [map fold_right List.length].
    f_equal; [|now rewrite last_cons].
    rewrite Nat2N.inj_succ. lia.
Qed.

Lemma overflowPenalties_app Style ks ls :
  overflowPenalties Style (ks ++ ls) =
  overflowPenalties Style ks + overflowPenalties Style ls.
Proof.
  unfold overflowPenalties. induction ks as [|k ks IH]; cbn; [reflexivity|].
  rewrite IH. lia.
Qed.

Lemma overflowPenalties_last Style ls d :
  ls <> [] ->
  overflowPenalties Style ls =
  overflowPenalties Style (removelast ls) + overflowPenalty Style (last ls d).
Proof.
  intros Hne. rewrite (app_removelast_last d Hne) at 1.
  rewrite overflowPenalties_app. unfold overflowPenalties. cbn. lia.
Qed.

(** C7. For a state whose current token ends beyond the column limit:
    when the token's kind supports splitting and the token splits into two
    lines or more, [breakProtrudingToken] returns the cost of the breaks it
    inserts, one between each two lines, and of the column-limit violation
    of every line but the last, and leaves the state in the column the last
    line ends in, so that with the penalty every state is charged for the
    line it ends on each line's violation is paid for exactly once; when
    the token is not broken, because its kind does not support splitting or
    it has no break point, the function returns 0 and leaves the state as
    it is, so that the overflow is paid for by that uniform penalty alone. *)
Theorem breakProtrudingToken_penalty
    (Style : FormatStyle) (Current : FormatToken) (State : LineState)
    (lines : list N) :
  ColumnLimit Style < Column State ->
  SplitColumns Current (Column State - ColumnWidth Current)
               (ColumnLimit Style) = lines ->
  (CanBreak Current = true -> (2 <= List.length lines)%nat ->
   fst (breakProtrudingToken Style Current State) =
     PenaltyBreak Style * N.of_nat (List.length lines - 1)
     + overflowPenalties Style (removelast lines) /\
   snd (breakProtrudingToken Style Current State) =
     set_Column State (last lines 0) /\
   fst (breakProtrudingToken Style Current State)
   + columnLimitPenalty Style (snd (breakProtrudingToken Style Current State)) =
     PenaltyBreak Style * N.of_nat (List.length lines - 1)
     + overflowPenalties Style lines) /\
  (CanBreak Current = false \/ (List.length lines <= 1)%nat ->
   breakProtrudingToken Style Current State = (0, State)).
Proof.
  intros Hout Hlines. unfold breakProtrudingToken.
  apply N.leb_gt in Hout. rewrite Hout, Hlines. split.
  - intros -> Hlen. cbn [negb].
    destruct lines as [|first [|second rest]]; cbn in Hlen; try lia.
    rewrite breakLines_spec. cbn [fst snd].
    rewrite last_cons.
    change (List.length (first :: second :: rest) - 1)%nat
      with (List.length (second :: rest)).
    assert (last (first :: second :: rest) 0 = last rest second) as Hlast
      by (now rewrite !last_cons).
    rewrite Hlast. split; [lia|]. split; [reflexivity|].
    unfold columnLimitPenalty. cbn [Column set_Column].
    rewrite (overflowPenalties_last Style (first :: second :: rest) 0)
      by discriminate.
    rewrite Hlast. lia.
  - intros [-> | Hlen]; [reflexivity|].
    destruct (negb (CanBreak Current)); [reflexivity|].
    destruct lines as [|first [|second rest]]; cbn in Hlen; try lia;
      reflexivity.
Qed.

Lemma breakProtrudingToken_penalty_witness :
  (fst (breakProtrudingToken narrow long_literal stateWide) = 209 /\
   Column (snd (breakProtrudingToken narrow long_literal stateWide)) = 15 /\
   columnLimitPenalty narrow
     (snd (breakProtrudingToken narrow long_literal stateWide)) = 0) /\
  (breakProtrudingToken narrow long_identifier stateWide = (0, stateWide) /\
   columnLimitPenalty narrow stateWide = 576).
Proof.
  assert (ColumnLimit narrow < Column stateWide) as Hout by reflexivity.
  destruct (breakProtrudingToken_penalty narrow long_literal stateWide
              [18; 23; 15] Hout eq_refl) as [Hbroken _].
  destruct (Hbroken eq_refl (le_S _ _ (le_n 2))) as (H1 & H2 & H3).
  destruct (breakProtrudingToken_penalty narrow long_identifier stateWide
              [] Hout eq_refl) as [_ Hwhole].
  split.
  - split; [exact H1|]. split; [now rewrite H2|]. now rewrite H2.
  - split; [exact (Hwhole (or_introl eq_refl))|reflexivity].
Defined.

End IndenterPenalty.
(** ** The line builder *)

Module LineBuilderFacts.
Import LineBuilder.

Local Abbreviation Grouping :=
  (UnwrappedLineParser -> list FormatToken -> FormatToken
   -> list FormatToken -> UnwrappedLineParser).

(** C9. A default-constructed [UnwrappedLine] has nesting level 0, is not
    part of a preprocessor directive, need not be a declaration, and holds
    no token. *)
Theorem UnwrappedLine_new_fields :
  Level UnwrappedLine_new = 0 /\
  InPPDirective UnwrappedLine_new = false /\
  MustBeDeclaration UnwrappedLine_new = false /\
  Tokens UnwrappedLine_new = [].
Proof. repeat split. Qed.

(** *** The parser's tests and the layout of the source *)

Local Open Scope nat_scope.

Lemma starts_line_first t : starts_line t = first_on_line t.
Proof.
  unfold starts_line, first_on_line.
  now destruct (HasUnescapedNewline t), (IsFirst t).
Qed.

Lemma is_false_condition_always t : is_false_condition t = always_false t.
Proof.
  unfold is_false_condition, always_false.
  destruct (Kind t); try reflexivity.
  destruct (string_dec (TokenText t) "0") as [->|Hne]; [reflexivity|].
  now apply String.eqb_neq.
Qed.

Lemma directive_line_hash t l :
  is_directive_line (t :: l) = is_hash t && starts_line t.
Proof.
  cbn. unfold is_hash. rewrite starts_line_first. now destruct (Kind t).
Qed.

Lemma whole_one_line l : whole_line l = true -> one_line l = true.
Proof.
  destruct l as [|t body]; [discriminate|]. cbn.
  now intros [_ H]%andb_prop.
Qed.

Lemma whole_well_cut lines :
  forallb whole_line lines = true -> well_cut lines = true.
Proof.
  destruct lines as [|l ls]; [reflexivity|]. cbn.
  intros [Hl Hls]%andb_prop. now rewrite (whole_one_line _ Hl).
Qed.

Lemma source_lines_well_cut ts : well_cut (source_lines ts) = true.
Proof.
  induction ts as [|t ts IH]; [reflexivity|]. cbn [source_lines].
  destruct (source_lines ts) as [|[|u l] ls]; [reflexivity|discriminate|].
  cbn in IH. apply andb_prop in IH as [Hl Hls].
  unfold continues_line in Hl.
  destruct (first_on_line u) eqn:Hu; cbn; unfold continues_line;
    rewrite ?Hu, ?Hl, ?Hls; reflexivity.
Qed.

Lemma source_lines_nil ts : source_lines ts = [] -> ts = [].
Proof.
  destruct ts as [|t ts]; [reflexivity|]. cbn.
  destruct (source_lines ts) as [|[|u l] ls]; [discriminate|discriminate|].
  now destruct (first_on_line u).
Qed.

Lemma source_lines_concat ts : List.concat (source_lines ts) = ts.
Proof.
  induction ts as [|t ts IH]; [reflexivity|]. cbn [source_lines].
  pose proof (source_lines_well_cut ts) as Hcut.
  destruct (source_lines ts) as [|[|u l] ls] eqn:E.
  - now rewrite (source_lines_nil _ E).
  - discriminate.
  - destruct (first_on_line u); cbn in *; now rewrite IH.
Qed.

Lemma depth_through_app d a b :
  depth_through d (a ++ b) = depth_through (depth_through d a) b.
Proof. apply fold_left_app. Qed.



(** *** The branch kinds and the depth *)

Lemma in_unreachable_reachable s :
  all_reachable s = true -> in_unreachable s = false.
Proof. now destruct s as [|[|] s]. Qed.

Lemma in_unreachable_repeat d s :
  0 < d -> in_unreachable (repeat PP_Unreachable d ++ s) = true.
Proof. destruct d; [lia|reflexivity]. Qed.

Lemma branches_depth d s b :
  all_reachable s = true ->
  exists s',
    branches_after (repeat PP_Unreachable d ++ s) b =
      repeat PP_Unreachable (depth_after_branching d b) ++ s' /\
    all_reachable s' = true.
Proof.
  intros Hs. destruct b.
  - exists s. now split.
  - destruct d as [|d].
    + exists (PP_Conditional :: s). split; [|exact Hs].
      now destruct s as [|[|] s].
    + exists s. now split.
  - destruct d as [|[|d]].
    + destruct s as [|k [|[|] s]]; cbn in *.
      * now exists [PP_Conditional].
      * now exists [PP_Conditional].
      * exists (PP_Conditional :: PP_Conditional :: s). split; [reflexivity|].
        now destruct k.
      * now destruct k.
    + destruct s as [|[|] s]; cbn in *.
      * now exists [PP_Conditional].
      * now exists (PP_Conditional :: PP_Conditional :: s).
      * discriminate.
    + exists s. now split.
  - destruct d as [|d]; cbn.
    + exists (tl s). split; [reflexivity|].
      destruct s as [|k s]; [reflexivity|].
      cbn in *. now apply andb_prop in Hs as [_ Hs].
    + now exists s.
  - now exists s.
Qed.


(** *** Lines *)

Lemma extend_line_nil L : extend_line L [] = L.
Proof.
  destruct L. unfold extend_line, with_Tokens. cbn. now rewrite app_nil_r.
Qed.

Lemma extend_line_app L a b :
  extend_line (extend_line L a) b = extend_line L (a ++ b).
Proof.
  unfold extend_line, with_Tokens. cbn. now rewrite map_app, app_assoc.
Qed.

Lemma extend_unit_line u l : extend_line (unit_line u) l = unit_line (u ++ l).
Proof.
  unfold extend_line, unit_line, directive_line, with_Tokens. cbn.
  now rewrite map_app.
Qed.

Lemma extend_line_directive L a :
  InPPDirective (extend_line L a) = InPPDirective L.
Proof. reflexivity. Qed.

Lemma extend_line_nonempty L a :
  Tokens L <> [] -> Tokens (extend_line L a) <> [].
Proof. cbn. destruct (Tokens L); [congruence|discriminate]. Qed.

Lemma line_tokens_nodes ts :
  flat_map (fun n => match Tok n with Some t => [t] | None => [] end)
           (map UnwrappedLineNode_of ts) = ts.
Proof. induction ts as [|t ts IH]; [reflexivity|]. cbn. now rewrite IH. Qed.

Lemma line_tokens_unit u : line_tokens (unit_line u) = u.
Proof. apply line_tokens_nodes. Qed.

Lemma line_tokens_extend L ts :
  line_tokens (extend_line L ts) = line_tokens L ++ ts.
Proof.
  unfold line_tokens, extend_line. cbn.
  now rewrite flat_map_app, line_tokens_nodes.
Qed.

Lemma map_line_tokens_units us : map line_tokens (map unit_line us) = us.
Proof.
  induction us as [|u us IH]; [reflexivity|]. cbn [map].
  now rewrite line_tokens_unit, IH.
Qed.

Lemma units_are_directives us :
  forallb InPPDirective (map unit_line us) = true.
Proof. induction us as [|u us IH]; [reflexivity|]. exact IH. Qed.

(** *** One token *)

Lemma same_queues_refl P : same_queues P P.
Proof. now repeat split. Qed.

Lemma same_queues_trans P Q R :
  same_queues P Q -> same_queues Q R -> same_queues P R.
Proof.
  intros (A1 & A2 & A3 & A4 & A5 & A6) (B1 & B2 & B3 & B4 & B5 & B6).
  repeat split; congruence.
Qed.

Lemma finishCondition_queues P :
  same_queues P (finishCondition P) /\ Line (finishCondition P) = Line P.
Proof. unfold finishCondition. now destruct (Position P). Qed.

Lemma finishCondition_finished P :
  Position P <> AtCondition -> finishCondition P = P.
Proof. unfold finishCondition. now destruct (Position P). Qed.

Lemma readToken_outside (h : Grouping) P before t ahead :
  InPPDirective (Line P) = false ->
  readToken h P before t ahead = readCode h P before t ahead.
Proof. unfold readToken. now intros ->. Qed.

Lemma readToken_continue (h : Grouping) P before t ahead :
  InPPDirective (Line P) = true -> first_on_line t = false ->
  readToken h P before t ahead = parsePPDirective P t.
Proof. unfold readToken. rewrite starts_line_first. now intros -> ->. Qed.

Lemma readToken_unit (h : Grouping) P before t ahead :
  InPPDirective (Line P) = true -> first_on_line t = true ->
  in_unreachable (PPStack (finishCondition P)) = true ->
  readToken h P before t ahead =
    set_Position (pushToken (finishCondition P) t)
                 (if is_hash t then AtKeyword else InBody).
Proof. unfold readToken. rewrite starts_line_first. now intros -> -> ->. Qed.

Lemma leaveDirective_outside P :
  InPPDirective (Line P) = false -> leaveDirective P = P.
Proof. unfold leaveDirective. now intros ->. Qed.

Lemma readToken_leave (h : Grouping) P before t ahead :
  InPPDirective (Line P) = true -> first_on_line t = true ->
  in_unreachable (PPStack (finishCondition P)) = false ->
  readToken h P before t ahead =
    readCode h (leaveDirective P) before t ahead.
Proof.
  unfold readToken, leaveDirective. rewrite starts_line_first.
  now intros -> -> ->.
Qed.

Lemma leaveDirective_unit P :
  InPPDirective (Line P) = true -> Tokens (Line P) <> [] ->
  CurrentLines P = ToPreprocessorDirectives ->
  Line (leaveDirective P) = PreBlockLine P /\
  Lines (leaveDirective P) = Lines P /\
  PreprocessorDirectives (leaveDirective P) =
    PreprocessorDirectives P ++ [Line P] /\
  CurrentLines (leaveDirective P) = ToLines /\
  DeclarationScopeStack (leaveDirective P) = DeclarationScopeStack P /\
  StructuralError (leaveDirective P) = StructuralError P /\
  PPStack (leaveDirective P) = PPStack (finishCondition P).
Proof.
  intros Hin Hne Hcl. unfold leaveDirective. rewrite Hin.
  destruct (finishCondition_queues P) as ((Q1 & Q2 & Q3 & Q4 & Q5 & Q6) & QL).
  rewrite <- Q1, <- Q2, <- Q4, <- Q5, <- Q6, <- QL.
  rewrite <- QL in Hne. rewrite <- Q3 in Hcl.
  destruct (finishCondition P) as [[tk lv ip md] Ls PD CL DSS SE ST PB Pos].
  cbn in *. subst CL. unfold endPPDirective, addUnwrappedLine. cbn.
  destruct tk; [congruence|]. now repeat split.
Qed.

Lemma parsePPDirective_queues P t :
  same_queues P (parsePPDirective P t) /\
  Line (parsePPDirective P t) = extend_line (Line P) [t].
Proof.
  unfold parsePPDirective, parsePPIf.
  destruct (Position P); [destruct (PPKeywordID t)| |];
    try destruct (is_false_condition t); now repeat split.
Qed.

(** *** The tokens of one source line *)

Lemma run_app (h : Grouping) a : forall P before b after,
  run h P before (a ++ b) after =
    run h (run h P before a (b ++ after)) (before ++ a) b after.
Proof.
  induction a as [|t a IH]; intros P before b after.
  - cbn. now rewrite app_nil_r.
  - cbn. rewrite <- !app_assoc, IH. now rewrite <- app_assoc.
Qed.

Lemma run_continues (h : Grouping) body : forall P before after,
  InPPDirective (Line P) = true -> continues_line body = true ->
  run h P before body after = fold_left parsePPDirective body P.
Proof.
  induction body as [|t body IH]; intros P before after Hin Hc;
    [reflexivity|].
  cbn in Hc. apply andb_prop in Hc as [Ht Hc].
  apply negb_true_iff in Ht. cbn.
  rewrite readToken_continue by assumption. apply IH; [|exact Hc].
  now rewrite (proj2 (parsePPDirective_queues P t)).
Qed.

Lemma fold_opaque body : forall P,
  Position P = InBody ->
  fold_left parsePPDirective body P = set_Line P (extend_line (Line P) body).
Proof.
  induction body as [|t body IH]; intros P Hpos.
  - cbn. rewrite extend_line_nil. now destruct P.
  - cbn [fold_left]. rewrite IH.
    + unfold parsePPDirective. rewrite Hpos.
      unfold pushToken, set_Line. cbn.
      change (with_Tokens (Line P)
                (Tokens (Line P) ++ [UnwrappedLineNode_of t]))
        with (extend_line (Line P) [t]).
      now rewrite extend_line_app.
    + unfold parsePPDirective. now rewrite Hpos.
Qed.

Lemma fold_rest more Q :
  Position Q = InBody ->
  same_queues Q (fold_left parsePPDirective more Q) /\
  Line (fold_left parsePPDirective more Q) = extend_line (Line Q) more /\
  PPStack (finishCondition (fold_left parsePPDirective more Q)) = PPStack Q.
Proof.
  intros HQ. rewrite (fold_opaque more Q HQ).
  rewrite finishCondition_finished by (cbn; congruence).
  now repeat split.
Qed.

Lemma parsePPDirective_keyword P t :
  Position P = AtKeyword ->
  PPStack (finishCondition (parsePPDirective P t)) =
    branches_after (PPStack P) (branching [t; t]) /\
  (PPKeywordID t <> pp_if -> Position (parsePPDirective P t) = InBody) /\
  (PPKeywordID t = pp_if ->
   parsePPDirective P t = set_Position (pushToken P t) AtCondition).
Proof.
  intros Hpos. unfold parsePPDirective. rewrite Hpos. cbn [branching].
  destruct (PPKeywordID t); cbn;
    (split; [|split; [intros; congruence || reflexivity
                     |intros; congruence || reflexivity]]);
    try reflexivity; now destruct (PPStack P) as [|[|] [|[|] s]].
Qed.

Lemma parsePPDirective_condition P c :
  Position P = AtCondition ->
  Position (parsePPDirective P c) = InBody /\
  PPStack (parsePPDirective P c) =
    (if always_false c then PP_Unreachable :: PPStack P
     else branches_after (PPStack P) Opens).
Proof.
  intros Hpos. unfold parsePPDirective, parsePPIf. rewrite Hpos.
  rewrite <- is_false_condition_always.
  destruct (is_false_condition c); cbn; (split; [reflexivity|]);
    [reflexivity|].
  now destruct (PPStack P) as [|[|] s].
Qed.

Lemma fold_directive body t0 : forall P,
  Position P = AtKeyword ->
  same_queues P (fold_left parsePPDirective body P) /\
  Line (fold_left parsePPDirective body P) = extend_line (Line P) body /\
  PPStack (finishCondition (fold_left parsePPDirective body P)) =
    branches_after (PPStack P) (branching (t0 :: body)).
Proof.
  intros P Hpos. destruct body as [|kw more].
  - cbn. rewrite extend_line_nil, finishCondition_finished by congruence.
    split; [apply same_queues_refl|now split].
  - cbn [fold_left].
    destruct (parsePPDirective_queues P kw) as [Hq HL].
    destruct (parsePPDirective_keyword P kw Hpos) as (Hst & Hbody & Hif).
    assert (forall Q, same_queues P Q -> Line Q = extend_line (Line P) [kw] ->
              Position Q = InBody ->
              same_queues P (fold_left parsePPDirective more Q) /\
              Line (fold_left parsePPDirective more Q) =
                extend_line (Line P) (kw :: more) /\
              PPStack (finishCondition (fold_left parsePPDirective more Q)) =
                PPStack Q) as Hrest.
    { intros Q Hsame HLQ HQ.
      destruct (fold_rest more Q HQ) as (R1 & R2 & R3).
      split; [exact (same_queues_trans _ _ _ Hsame R1)|].
      split; [|exact R3]. now rewrite R2, HLQ, extend_line_app. }
    destruct (PPKeywordID kw) eqn:Hkw.
    all: try (destruct (Hrest _ Hq HL (Hbody ltac:(congruence)))
                as (R1 & R2 & R3);
              split; [exact R1|]; split; [exact R2|];
              rewrite R3;
              rewrite finishCondition_finished in Hst
                by (rewrite Hbody; congruence);
              rewrite Hst; cbn [branching]; now rewrite Hkw).
    destruct more as [|c more].
    + cbn [fold_left]. split; [exact Hq|]. split; [exact HL|].
      rewrite Hst. cbn [branching]. now rewrite Hkw.
    + cbn [fold_left].
      assert (Position (parsePPDirective P kw) = AtCondition) as Hpos'
        by now rewrite (Hif eq_refl).
      destruct (parsePPDirective_queues (parsePPDirective P kw) c)
        as [Hq' HL'].
      destruct (parsePPDirective_condition _ c Hpos') as [Hpc Hsc].
      destruct (fold_rest more _ Hpc) as (R1 & R2 & R3).
      split; [exact (same_queues_trans _ _ _ Hq
                       (same_queues_trans _ _ _ Hq' R1))|].
      split; [now rewrite R2, HL', HL, !extend_line_app|].
      rewrite R3, Hsc. cbn [branching]. rewrite Hkw.
      rewrite (Hif eq_refl). cbn [PPStack set_Position pushToken set_Line].
      now destruct (always_false c).
Qed.

(** A source line inside an unreachable branch is kept in the unit as it
    stands: the grouping is not asked, and only a directive changes the
    branch kinds. *)
Lemma unit_step (h : Grouping) S before l after :
  InPPDirective (Line S) = true -> whole_line l = true ->
  in_unreachable (PPStack (finishCondition S)) = true ->
  same_queues S (run h S before l after) /\
  Line (run h S before l after) = extend_line (Line S) l /\
  PPStack (finishCondition (run h S before l after)) =
    (if is_directive_line l
     then branches_after (PPStack (finishCondition S)) (branching l)
     else PPStack (finishCondition S)) /\
  forall (h' : Grouping) before' after',
    run h' S before' l after' = run h S before l after.
Proof.
  intros Hin Hl Hun. destruct l as [|t body]; [discriminate|].
  cbn in Hl. apply andb_prop in Hl as [Ht Hbody].
  destruct (finishCondition_queues S) as [Hq HL].
  set (S1 := set_Position (pushToken (finishCondition S) t)
                          (if is_hash t then AtKeyword else InBody)).
  assert (forall (g : Grouping) b a, run g S b (t :: body) a =
            fold_left parsePPDirective body S1) as Hrun.
  { intros g b a. cbn [run]. rewrite readToken_unit by assumption.
    apply run_continues; [|exact Hbody]. cbn. now rewrite HL. }
  assert (same_queues S S1) as Hq1.
  { destruct Hq as (A1 & A2 & A3 & A4 & A5 & A6). now repeat split. }
  assert (Line S1 = extend_line (Line S) [t]) as HL1
    by (cbn; now rewrite HL).
  split; [|split; [|split]]; rewrite ?Hrun.
  4: { intros h' before' after'. now rewrite !Hrun. }
  all: try rewrite directive_line_hash, starts_line_first, Ht, andb_true_r.
  all: destruct (is_hash t) eqn:Hh.
  all: try (destruct (fold_directive body t S1 eq_refl) as (R1 & R2 & R3)).
  all: try (destruct (fold_rest body S1 eq_refl) as (R1 & R2 & R3)).
  all: try exact (same_queues_trans _ _ _ Hq1 R1).
  all: try (rewrite R2, HL1, extend_line_app; reflexivity).
  all: rewrite R3; reflexivity.
Qed.

(** A directive met outside a directive: the line under construction is
    parked, and the directive's source line is read without the grouping. *)
Lemma directive_step (h : Grouping) S before l after :
  InPPDirective (Line S) = false -> one_line l = true ->
  is_directive_line l = true ->
  Line (run h S before l after) = unit_line l /\
  PreBlockLine (run h S before l after) = Line S /\
  Lines (run h S before l after) = Lines S /\
  PreprocessorDirectives (run h S before l after) = PreprocessorDirectives S /\
  CurrentLines (run h S before l after) =
    match Tokens (Line S) with
    | [] => CurrentLines S
    | _ :: _ => ToPreprocessorDirectives
    end /\
  DeclarationScopeStack (run h S before l after) = DeclarationScopeStack S /\
  StructuralError (run h S before l after) = StructuralError S /\
  PPStack (finishCondition (run h S before l after)) =
    branches_after (PPStack S) (branching l) /\
  forall (h' : Grouping) before' after',
    run h' S before' l after' = run h S before l after.
Proof.
  intros Hout Hl Hdir. destruct l as [|t body]; [discriminate|].
  cbn in Hl. rewrite directive_line_hash in Hdir.
  assert (forall (g : Grouping) b a, run g S b (t :: body) a =
            fold_left parsePPDirective body (beginPPDirective S t)) as Hrun.
  { intros g b a. cbn [run]. rewrite readToken_outside by assumption.
    unfold readCode. rewrite Hdir. now apply run_continues. }
  rewrite !Hrun.
  destruct (fold_directive body t (beginPPDirective S t) eq_refl)
    as ((Q1 & Q2 & Q3 & Q4 & Q5 & Q6) & R2 & R3).
  rewrite R2, Q1, Q2, Q3, Q4, Q5, Q6, R3.
  repeat split. intros h' before' after'. now rewrite Hrun.
Qed.

Lemma run_pushes (h : Grouping) body : forall S before after,
  InPPDirective (Line S) = false -> continues_line body = true ->
  (forall t, In t body -> extends_line h t) ->
  run h S before body after = set_Line S (extend_line (Line S) body).
Proof.
  induction body as [|t body IH]; intros S before after Hout Hc Hh.
  - cbn. rewrite extend_line_nil. now destruct S.
  - cbn in Hc. apply andb_prop in Hc as [Ht Hc].
    apply negb_true_iff in Ht. cbn [run].
    rewrite readToken_outside by assumption. unfold readCode.
    rewrite starts_line_first, Ht, andb_false_r.
    rewrite (Hh t (or_introl eq_refl)).
    rewrite IH; [|exact Hout|exact Hc|intros u Hu; apply Hh; now right].
    unfold pushToken, set_Line. cbn.
    change (with_Tokens (Line S) (Tokens (Line S) ++ [UnwrappedLineNode_of t]))
      with (extend_line (Line S) [t]).
    now rewrite extend_line_app.
Qed.

(** A source line of code whose tokens the grouping adds to the line. *)
Lemma code_step (h : Grouping) S before l after :
  InPPDirective (Line S) = false -> one_line l = true ->
  is_directive_line l = false ->
  (forall t, In t l -> extends_line h t) ->
  run h S before l after = set_Line S (extend_line (Line S) l).
Proof.
  intros Hout Hl Hdir Hh. destruct l as [|t body]; [discriminate|].
  cbn in Hl. rewrite directive_line_hash in Hdir. cbn [run].
  rewrite readToken_outside by assumption. unfold readCode. rewrite Hdir.
  rewrite (Hh t (or_introl eq_refl)).
  rewrite run_pushes; [|exact Hout|exact Hl|intros u Hu; apply Hh; now right].
  unfold pushToken, set_Line. cbn.
  change (with_Tokens (Line S) (Tokens (Line S) ++ [UnwrappedLineNode_of t]))
    with (extend_line (Line S) [t]).
  now rewrite extend_line_app.
Qed.

(** The first token of a source line, read after a directive whose unit
    does not go on, is read outside the directive. *)
Lemma leave_step (h : Grouping) S before l rest after :
  InPPDirective (Line S) = true -> whole_line l = true ->
  in_unreachable (PPStack (finishCondition S)) = false ->
  InPPDirective (Line (leaveDirective S)) = false ->
  run h S before (l ++ rest) after =
    run h (leaveDirective S) before (l ++ rest) after.
Proof.
  intros Hin Hl Hun Hout. destruct l as [|t body]; [discriminate|].
  cbn in Hl. apply andb_prop in Hl as [Ht _]. cbn [run app].
  rewrite readToken_leave by assumption.
  now rewrite (readToken_outside h (leaveDirective S)).
Qed.

(** *** The source lines of a unit that is never compiled *)





(** The spec's scenario: [#if 0], garbage, [#endif] is handed over as one
    line that holds every token, with no structural error and no branch
    left open. *)
Example if0_garbage_one_unit :
  let X := parseFile_end (run line_per_statement initial [] if0_garbage []) in
  map line_tokens (Lines X) = [if0_garbage] /\
  forallb InPPDirective (Lines X) = true /\
  StructuralError X = false /\
  PPStack X = [].
Proof. vm_compute. repeat split. Qed.

(** *** Directives inside an unfinished line *)

Lemma outside_not_directive P X code units :
  in_directive P = false -> outside_directive P X code units ->
  InPPDirective (Line X) = false.
Proof. intros HP (HL & _). now rewrite HL. Qed.

Lemma leave_unit P X code units u :
  in_directive P = false -> u <> [] ->
  inside_unit P X code units u ->
  outside_directive P (leaveDirective X) code (units ++ [u]) /\
  PPStack (leaveDirective X) = PPStack (finishCondition X) /\
  InPPDirective (Line X) = true.
Proof.
  intros HP Hu (I1 & I2 & I3 & I4 & I5 & I6 & I7).
  assert (InPPDirective (Line X) = true) as Hin by now rewrite I1.
  assert (Tokens (Line X) <> []) as Hne.
  { rewrite I1. cbn. destruct u; [congruence|discriminate]. }
  destruct (leaveDirective_unit X Hin Hne I5)
    as (L1 & L2 & L3 & L4 & L5 & L6 & L7).
  split; [|now split].
  unfold outside_directive.
  rewrite L1, L2, L3, L4, L5, L6, I1, I2, I3, I4, I6, I7.
  rewrite map_app, <- app_assoc. now repeat split.
Qed.

Lemma run_lines (h : Grouping) P :
  in_directive P = false -> Tokens (Line P) <> [] ->
  forall lines,
  (forall X before code units after,
     well_cut lines = true ->
     outside_directive P X code units ->
     all_reachable (PPStack X) = true ->
     (forall t, In t (code_from 0 lines) -> extends_line h t) ->
     outside_directive P
       (leaveDirective (run h X before (List.concat lines) after))
       (code ++ code_from 0 lines) (units ++ units_from 0 lines) /\
     exists s,
       PPStack (leaveDirective (run h X before (List.concat lines) after)) =
         repeat PP_Unreachable (depth_through 0 lines) ++ s /\
       all_reachable s = true) /\
  (forall X before code units u d s after,
     forallb whole_line lines = true ->
     u <> [] ->
     inside_unit P X code units u ->
     PPStack (finishCondition X) = repeat PP_Unreachable d ++ s ->
     all_reachable s = true ->
     (forall t, In t (code_from d lines) -> extends_line h t) ->
     outside_directive P
       (leaveDirective (run h X before (List.concat lines) after))
       (code ++ code_from d lines)
       (units ++ (u ++ unit_rest d lines) :: units_from d lines) /\
     exists s',
       PPStack (leaveDirective (run h X before (List.concat lines) after)) =
         repeat PP_Unreachable (depth_through d lines) ++ s' /\
       all_reachable s' = true).
Proof.
  intros HP Hne. induction lines as [|l ls [IHout IHin]].
  - split.
    + intros X before code units after _ HX Hs _. cbn.
      rewrite leaveDirective_outside
        by exact (outside_not_directive _ _ _ _ HP HX).
      rewrite !app_nil_r. split; [exact HX|]. now exists (PPStack X).
    + intros X before code units u d s after _ Hu HX Hst Hs _. cbn.
      destruct (leave_unit P X code units u HP Hu HX) as (L1 & L2 & _).
      rewrite !app_nil_r. split; [exact L1|]. exists s.
      rewrite L2, Hst. now split.
  - assert (forall X before code units after,
     well_cut (l :: ls) = true ->
     outside_directive P X code units ->
     all_reachable (PPStack X) = true ->
     (forall t, In t (code_from 0 (l :: ls)) -> extends_line h t) ->
     outside_directive P
       (leaveDirective (run h X before (List.concat (l :: ls)) after))
       (code ++ code_from 0 (l :: ls)) (units ++ units_from 0 (l :: ls)) /\
     exists s,
       PPStack (leaveDirective
                  (run h X before (List.concat (l :: ls)) after)) =
         repeat PP_Unreachable (depth_through 0 (l :: ls)) ++ s /\
       all_reachable s = true) as Hout.
    { intros X before code units after Hcut HX Hs Hh.
      cbn in Hcut. apply andb_prop in Hcut as [Hl Hls].
      pose proof (outside_not_directive _ _ _ _ HP HX) as HoutX.
      destruct HX as (X1 & X2 & X3 & X4 & X5 & X6).
      cbn [List.concat code_from units_from depth_through fold_left] in *.
      fold (depth_through (depth_after 0 l) ls).
      rewrite run_app. unfold depth_after in *.
      destruct (is_directive_line l) eqn:Hdir.
      - destruct (directive_step h X before l (List.concat ls ++ after)
                    HoutX Hl Hdir)
          as (D1 & D2 & D3 & D4 & D5 & D6 & D7 & D8 & _).
        destruct (branches_depth 0 (PPStack X) (branching l) Hs)
          as (s' & Hs' & Hr').
        cbn [repeat app] in Hs'. rewrite Hs' in D8.
        assert (Tokens (Line X) <> []) as HneX
          by (rewrite X1; now apply extend_line_nonempty).
        destruct (Tokens (Line X)) eqn:Etk; [congruence|].
        apply (IHin _ _ code units l _ s' after Hls); try assumption.
        + destruct l; [discriminate|discriminate].
        + unfold inside_unit.
          rewrite D1, D2, D3, D4, D5, D6, D7, X1, X2, X3, X5, X6.
          now repeat split.
      - rewrite (code_step h X before l (List.concat ls ++ after)
                   HoutX Hl Hdir)
          by (intros t Ht; apply Hh, in_or_app; now left).
        rewrite app_assoc.
        apply IHout.
        + now apply whole_well_cut.
        + unfold outside_directive. cbn.
          rewrite X1, extend_line_app, X2, X3, X4, X5, X6.
          now repeat split.
        + exact Hs.
        + intros t Ht. apply Hh, in_or_app. now right. }
    split; [exact Hout|].
    intros X before code units u d s after Hls Hu HX Hst Hs Hh.
    cbn in Hls. apply andb_prop in Hls as [Hl Hls].
    destruct (leave_unit P X code units u HP Hu HX) as (L1 & L2 & Hin).
    destruct d as [|d0].
    + cbn [repeat app] in Hst.
      cbn [unit_rest]. rewrite app_nil_r.
      cbn [List.concat].
      rewrite (leave_step h X before l (List.concat ls) after Hin Hl).
      * replace (units ++ u :: units_from 0 (l :: ls))
          with ((units ++ [u]) ++ units_from 0 (l :: ls))
          by now rewrite <- app_assoc.
        apply (Hout _ before code (units ++ [u]) after).
        -- cbn. now rewrite (whole_one_line _ Hl).
        -- exact L1.
        -- now rewrite L2, Hst.
        -- exact Hh.
      * rewrite Hst. now apply in_unreachable_reachable.
      * exact (outside_not_directive _ _ _ _ HP L1).
    + assert (in_unreachable (PPStack (finishCondition X)) = true) as Hun
        by (rewrite Hst; apply in_unreachable_repeat; lia).
      destruct (unit_step h X before l (List.concat ls ++ after) Hin Hl Hun)
        as ((Q1 & Q2 & Q3 & Q4 & Q5 & Q6) & U2 & U3 & _).
      destruct HX as (I1 & I2 & I3 & I4 & I5 & I6 & I7).
      cbn [List.concat code_from units_from unit_rest depth_through
           fold_left].
      fold (depth_through (depth_after (S d0) l) ls).
      rewrite run_app.
      assert (exists s',
                PPStack (finishCondition
                           (run h X before l (List.concat ls ++ after))) =
                  repeat PP_Unreachable (depth_after (S d0) l) ++ s' /\
                all_reachable s' = true) as (s' & Hs' & Hr').
      { rewrite U3, Hst. unfold depth_after.
        destruct (is_directive_line l); [|now exists s].
        now apply branches_depth. }
      rewrite app_assoc.
      apply (IHin _ _ code units (u ++ l) _ s' after Hls); try assumption.
      * destruct u; [congruence|discriminate].
      * unfold inside_unit.
        rewrite U2, Q1, Q2, Q3, Q4, Q5, Q6, I1, I2, I3, I4, I5, I6, I7.
        rewrite extend_unit_line. now repeat split.
Qed.

(** C6. A logical line is under construction, and the tokens [ts] that
    follow hold directives, any number of them and anywhere among the
    tokens, while the grouping only adds the tokens outside the directives
    to the line. Then every directive is buffered as a unit of its own in
    [PreprocessorDirectives], in source order and with all its tokens, and
    no line is handed over; the tokens outside the directives are all added
    to the one line under construction, in source order. When the line is
    completed, by the token read next, before it, or by the end of the
    stream, it is handed over first and the buffered directives follow it
    at once, in source order. The token that begins the next source line of
    code is given to the grouping in that state. *)
Theorem directives_follow_interrupted_line (h : Grouping)
    (P : UnwrappedLineParser) (before ts after : list FormatToken) :
  in_directive P = false ->
  CurrentLines P = ToLines ->
  Tokens (Line P) <> [] ->
  all_reachable (PPStack P) = true ->
  (forall t, In t (code_tokens ts) -> extends_line h t) ->
  let Q := leaveDirective (run h P before ts after) in
  let buffered := map unit_line (preprocessor_units ts) in
  (Lines Q = Lines P /\
   PreprocessorDirectives Q = PreprocessorDirectives P ++ buffered /\
   map line_tokens buffered = preprocessor_units ts /\
   forallb InPPDirective buffered = true) /\
  (Line Q = extend_line (Line P) (code_tokens ts) /\
   line_tokens (Line Q) = line_tokens (Line P) ++ code_tokens ts /\
   in_directive Q = false /\
   CurrentLines Q = ToLines /\
   DeclarationScopeStack Q = DeclarationScopeStack P /\
   StructuralError Q = StructuralError P) /\
  (forall t,
     Lines (addUnwrappedLine (pushToken Q t)) =
       Lines P ++ [extend_line (Line P) (code_tokens ts ++ [t])]
               ++ PreprocessorDirectives P ++ buffered /\
     PreprocessorDirectives (addUnwrappedLine (pushToken Q t)) = []) /\
  (Lines (addUnwrappedLine Q) =
     Lines P ++ [extend_line (Line P) (code_tokens ts)]
             ++ PreprocessorDirectives P ++ buffered /\
   PreprocessorDirectives (addUnwrappedLine Q) = []) /\
  parseFile_end (run h P before ts after) = addUnwrappedLine Q /\
  (depth_through 0 (source_lines ts) = 0 ->
   all_reachable (PPStack Q) = true /\
   forall t ahead,
     first_on_line t = true -> is_hash t = false ->
     readToken h (run h P before ts after) (before ++ ts) t ahead =
       h Q (before ++ ts) t ahead).
Proof.
  intros HP Hcl Hne Hs Hh Q buffered.
  assert (outside_directive P P [] []) as HPP.
  { unfold outside_directive. cbn [map]. rewrite extend_line_nil, app_nil_r.
    now repeat split. }
  destruct (proj1 (run_lines h P HP Hne (source_lines ts))
              P before [] [] after (source_lines_well_cut ts) HPP Hs Hh)
    as (HQ & s & Hst & Hr).
  rewrite source_lines_concat in HQ, Hst. cbn [app] in HQ.
  fold (code_tokens ts) in HQ. fold (preprocessor_units ts) in HQ.
  fold Q in HQ, Hst. fold buffered in HQ.
  pose proof (outside_not_directive _ _ _ _ HP HQ) as HoutQ.
  destruct HQ as (Q1 & Q2 & Q3 & Q4 & Q5 & Q6).
  assert (forall L, Tokens (extend_line (Line P) L) <> []) as HneL
    by (intros L; now apply extend_line_nonempty).
  split; [|split; [|split; [|split; [|split]]]].
  - split; [exact Q2|]. split; [exact Q3|].
    split; [apply map_line_tokens_units|apply units_are_directives].
  - split; [exact Q1|]. split; [now rewrite Q1, line_tokens_extend|].
    now repeat split.
  - intros t. unfold addUnwrappedLine, pushToken. cbn.
    destruct (Tokens (Line Q) ++ [UnwrappedLineNode_of t]) eqn:E;
      [now destruct (Tokens (Line Q))|].
    rewrite Q4. cbn. rewrite Q2, Q3. split; [|reflexivity].
    do 2 f_equal. rewrite <- E, Q1. unfold extend_line, with_Tokens. cbn.
    now rewrite map_app, app_assoc.
  - unfold addUnwrappedLine.
    destruct (Tokens (Line Q)) eqn:E;
      [rewrite Q1 in E; now apply HneL in E|].
    rewrite Q4. cbn. now rewrite Q1, Q2, Q3.
  - reflexivity.
  - intros Hd. rewrite Hd in Hst. cbn [repeat app] in Hst.
    split; [now rewrite Hst|].
    intros t ahead Ht Hhash.
    assert (readCode h Q (before ++ ts) t ahead = h Q (before ++ ts) t ahead)
      as Hcode by (unfold readCode; now rewrite Hhash).
    rewrite <- Hcode. subst Q.
    destruct (InPPDirective (Line (run h P before ts after))) eqn:Hin.
    + apply readToken_leave; [exact Hin|exact Ht|].
      unfold leaveDirective in Hst. rewrite Hin in Hst.
      apply in_unreachable_reachable.
      replace (PPStack (finishCondition (run h P before ts after))) with s;
        [exact Hr|].
      rewrite <- Hst. unfold endPPDirective, addUnwrappedLine.
      now destruct
        (Tokens (Line (finishCondition (run h P before ts after)))),
        (CurrentLines (finishCondition (run h P before ts after))).
    + rewrite leaveDirective_outside by exact Hin.
      now apply readToken_outside.
Qed.

Lemma directives_follow_interrupted_line_witness :
  map line_tokens
      (PreprocessorDirectives
         (leaveDirective
            (run line_per_statement after_stmt_head stmt_head
                 interrupted_tail [semi_token]))) =
    [define_X; undef_Y; if0_garbage] /\
  line_tokens
    (Line (leaveDirective
             (run line_per_statement after_stmt_head stmt_head
                  interrupted_tail [semi_token]))) =
    stmt_head ++ [five_token] /\
  Lines (leaveDirective
           (run line_per_statement after_stmt_head stmt_head
                interrupted_tail [semi_token])) = [] /\
  map line_tokens
      (Lines (readToken line_per_statement
                (run line_per_statement after_stmt_head stmt_head
                     interrupted_tail [semi_token])
                (stmt_head ++ interrupted_tail) semi_token [])) =
    [stmt_head ++ [five_token; semi_token]; define_X; undef_Y; if0_garbage].
Proof.
  assert (Tokens (Line after_stmt_head) <> []) as Hne by discriminate.
  assert (forall t, In t (code_tokens interrupted_tail) ->
                    extends_line line_per_statement t) as Hh.
  { intros t [<-|[]] Q before ahead. reflexivity. }
  destruct (directives_follow_interrupted_line line_per_statement
              after_stmt_head stmt_head interrupted_tail [semi_token]
              eq_refl eq_refl Hne eq_refl Hh)
    as ((B1 & B2 & _) & (_ & L2 & _) & Hpush & _ & _ & Hnext).
  split; [exact (f_equal (map line_tokens) B2)|].
  split; [exact L2|]. split; [exact B1|].
  rewrite (proj2 (Hnext eq_refl) semi_token [] eq_refl eq_refl).
  exact (f_equal (map line_tokens) (proj1 (Hpush semi_token))).
Defined.

(** The whole stream [int a =], [#define X 1], [#undef Y], [5], the unit of
    an [#if 0], [;]: the statement is one line, and the three units follow
    it in source order. *)
Example interrupted_statement_lines :
  map line_tokens
      (Lines (parseFile_end
                (run line_per_statement initial []
                     (stmt_head ++ interrupted_tail ++ [semi_token]) []))) =
    [stmt_head ++ [five_token; semi_token]; define_X; undef_Y; if0_garbage].
Proof. vm_compute. reflexivity. Qed.

End LineBuilderFacts.
